(** * Keyset pagination: the query builder and the page orchestrator

    A shallow embedding of [paginator/paginator.go] ([Paginator]) and
    [paginator/paginator_v1.go] ([SqlPaginator]).  Go's pointer receivers
    become explicit state passing, run-time panics are results in the [exec]
    monad, and the collaborators that live outside the two files (gorm, the
    cursor codec, the schema parser, [fmt]) are the fields of the
    [Collaborators] class. *)

From Stdlib Require Import ZArith String Bool Lia.
From stdpp Require Import base list strings pretty.

(** ** Go values *)

(** Kinds of reference values that [reflect] tells apart. *)
Inductive Kind := Ptr | Map | Chan | Slice | Func.

(** An [interface{}] value: the nil interface, a reference of some kind (a
    typed nil when it has no target), or a scalar. *)
Inductive Value :=
| VNil
| VRef (k : Kind) (target : option Z)
| VInt (n : Z)
| VString (s : string)
| VBool (b : bool).

(** [i == nil] on an interface value. *)
Definition isNilInterface (i : Value) : bool :=
  match i with VNil => true | _ => false end.

(** A pointer compared with nil. *)
Definition notNil {A} (ptr : option A) : bool :=
  match ptr with Some _ => true | None => false end.

(** Go's [int] is 64 bits wide on every platform gorm supports; [+] wraps. *)
Definition wrap_int (z : Z) : Z := ((z + 2 ^ 63) mod 2 ^ 64 - 2 ^ 63)%Z.
Definition int_add (a b : Z) : Z := wrap_int (a + b).
Definition max_int : Z := (2 ^ 63 - 1)%Z.

(** Code that may panic (nil dereference, index out of range). *)
Inductive exec (A : Type) :=
| Panic
| Ret (a : A).
Arguments Panic {A}.
Arguments Ret {A} a.

#[global] Instance exec_ret : MRet exec := fun A a => Ret a.
#[global] Instance exec_bind : MBind exec := fun A B k m =>
  match m with
  | Panic => Panic
  | Ret a => k a
  end.

(** Dereferencing a pointer. *)
Definition deref {A} (ptr : option A) : exec A :=
  match ptr with
  | Some a => Ret a
  | None => Panic
  end.

(** [s[i]] and [reflect.Value.Index(i)] with a signed index. *)
Definition Index {A} (s : list A) (i : Z) : exec A :=
  if (i <? 0)%Z then Panic
  else match s !! Z.to_nat i with
       | Some a => Ret a
       | None => Panic
       end.

(** ** Data model *)

Inductive error :=
| ErrNoRule
| ErrInvalidLimit
| ErrInvalidCursor
| ErrOther (msg : string).

(** Struct fields keep their Go names.  A Go type that shares its name with
    a field ([Order], [CustomType]) carries the suffix [T] here. *)

(** Modelled from the spec: the [Order] type and its two literals are
    declared outside the two source files; the spec gives the enum
    {ASC, DESC}, and the source compares an [Order] with the empty string,
    so it is a string type. *)
Definition OrderT := string.
Definition ASC : OrderT := "ASC".
Definition DESC : OrderT := "DESC".

Record CustomTypeT := {
  Meta : Value;
  TypeOf : string
}.

Record Rule := {
  Key : string;
  Order : OrderT;
  SQLRepr : string;
  SQLType : option string;
  NULLReplacement : Value;
  CustomType : option CustomTypeT
}.

Record Cursor := {
  After : option string;
  Before : option string
}.

Record Paginator := {
  cursor : Cursor;
  rules : list Rule;
  limit : Z;
  order : OrderT
}.

(** [cursor.EncoderField] is a key with its meta value, [cursor.DecoderField]
    a key with a pointer to its type. *)
Definition EncoderField : Type := string * Value.
Definition DecoderField : Type := string * option string.

(** A gorm DB handle, as the clauses chained onto it and its [Error].
    gorm's [Order] adds no clause for the empty string. *)
Inductive Clause :=
| Limit (n : Z)
| OrderBy (sql : string)
| Where (query : string) (args : list Value).

Record DB := {
  Statement : list Clause;
  Error : option error
}.

Definition db_Limit (db : DB) (n : Z) : DB :=
  {| Statement := Statement db ++ [Limit n]; Error := Error db |}.
Definition db_Order (db : DB) (sql : string) : DB :=
  if (sql =? "")%string then db
  else {| Statement := Statement db ++ [OrderBy sql]; Error := Error db |}.
Definition db_Where (db : DB) (query : string) (args : list Value) : DB :=
  {| Statement := Statement db ++ [Where query args]; Error := Error db |}.

(** What the [dest] pointer points to: a slice of rows or a single row. *)
Inductive Dest (Row : Type) :=
| DSlice (elems : list Row)
| DStruct (row : Row).
Arguments DSlice {Row} elems.
Arguments DStruct {Row} row.

Record Field := { DBName : string }.

Record Schema := {
  Table : string;
  LookUpField : string -> option Field
}.

(** The code outside the two files, as the source calls it. *)
Class Collaborators (Row : Type) := {
  (** [Order.flip] and [Order.validate] *)
  flip : OrderT -> OrderT;
  order_validate : OrderT -> option error;
  (** [Rule.validate] *)
  rule_validate : DB -> Dest Row -> Rule -> option error;
  (** [util.ParseSchema] *)
  ParseSchema : DB -> Dest Row -> error + Schema;
  (** [cursor.NewDecoder(fields).Decode], which returns a result and an error *)
  Decode : list DecoderField -> string -> Dest Row -> list Value * option error;
  (** [cursor.NewEncoder(fields).Encode] *)
  Encode : list EncoderField -> Row -> error + string;
  (** [Find] of gorm's DB: the handle it returns and what it stores in [dest] *)
  Find : DB -> Dest Row -> DB * Dest Row;
  (** the [%v] verb of [fmt.Sprintf] *)
  fmt_v : Value -> string
}.

(** Modelled from the spec: the helper [reverse] is defined outside the two
    source files; the spec has it restore the forward order of the rows, that
    is, return them in the opposite order. *)
Definition reverse {A} (elems : list A) : list A := rev elems.

(** ** paginator.go *)

Definition isForward (p : Paginator) : bool :=
  notNil (After (cursor p)).

Definition isBackward (p : Paginator) : bool :=
  negb (isForward p) && notNil (Before (cursor p)).

(** One iteration of the loop of [BuildCursorSQLQuery] over the state
    [(queries, query)]. *)
Definition cursorQueryStep (p : Paginator) (st : list string * string) (rule : Rule)
  : list string * string :=
  let '(queries, query) := st in
  let operator :=
    if (isForward p && (Order rule =? ASC)%string)
       || (isBackward p && (Order rule =? DESC)%string)
    then ">" else "<" in
  (queries ++ [query +:+ SQLRepr rule +:+ " " +:+ operator +:+ " ?"],
   query +:+ SQLRepr rule +:+ " = ? AND ").

Definition BuildCursorSQLQuery (p : Paginator) : string :=
  String.concat " OR " (fst (fold_left (cursorQueryStep p) (rules p) ([], ""))).

Definition BuildCursorSQLQueryArgs (fields : list Value) : list Value :=
  fold_left (fun args i => args ++ take i fields) (seq 1 (length fields)) [].

Definition withSQLRepr (rule : Rule) (repr : string) : Rule :=
  {| Key := Key rule; Order := Order rule; SQLRepr := repr;
     SQLType := SQLType rule; NULLReplacement := NULLReplacement rule;
     CustomType := CustomType rule |}.

Definition withOrder (rule : Rule) (o : OrderT) : Rule :=
  {| Key := Key rule; Order := o; SQLRepr := SQLRepr rule;
     SQLType := SQLType rule; NULLReplacement := NULLReplacement rule;
     CustomType := CustomType rule |}.

Definition withRules (p : Paginator) (rs : list Rule) : Paginator :=
  {| cursor := cursor p; rules := rs; limit := limit p; order := order p |}.

(** The zero value [Cursor{}]. *)
Definition noCursor : Cursor := {| After := None; Before := None |}.

Definition isNil (i : Value) : bool :=
  if isNilInterface i then true
  else match i with
       | VRef (Ptr | Map | Chan | Slice) target => negb (notNil target)
       | _ => false
       end.

Definition getEncoderFields (p : Paginator) : list EncoderField :=
  (fun rule => (Key rule,
                match CustomType rule with
                | Some ct => Meta ct
                | None => VNil
                end)) <$> rules p.

Definition getDecoderFields (p : Paginator) : list DecoderField :=
  (fun rule => (Key rule,
                match CustomType rule with
                | Some ct => Some (TypeOf ct)
                | None => None
                end)) <$> rules p.

(** What [Paginate] leaves behind: its three results, the contents of
    [dest], and the statements handed to the query engine. *)
Record Page (Row : Type) := {
  page_result : option DB;
  page_cursor : Cursor;
  page_err : option error;
  page_dest : Dest Row;
  page_executed : list DB
}.
Arguments page_result {Row} _.
Arguments page_cursor {Row} _.
Arguments page_err {Row} _.
Arguments page_dest {Row} _.
Arguments page_executed {Row} _.

Section Paginator.
Context {Row : Type} {collab : Collaborators Row}.

Fixpoint validateRules (db : DB) (dest : Dest Row) (rs : list Rule) : option error :=
  match rs with
  | [] => None
  | rule :: rest =>
      match rule_validate db dest rule with
      | Some err => Some err
      | None => validateRules db dest rest
      end
  end.

Definition validate (p : Paginator) (db : DB) (dest : Dest Row) : option error :=
  if (length (rules p) =? 0)%nat then Some ErrNoRule
  else if (limit p <=? 0)%Z then Some ErrInvalidLimit
  else match order_validate (order p) with
       | Some err => Some err
       | None => validateRules db dest (rules p)
       end.

(** The error of [ParseSchema] is dropped, so a failed parse leaves a nil
    schema to dereference; so does a key the schema does not know. *)
Definition parseSQLKey (db : DB) (dest : Dest Row) (key : string) : exec string :=
  match ParseSchema db dest with
  | inl _ => Panic
  | inr schema =>
      field ← deref (LookUpField schema key);
      Ret (DBName field)
  end.

(** The body of the loop of [setup] for one rule: the error it returns
    with, or the new [sqlTable] and the rule as it is left. *)
Definition setupRule (p : Paginator) (db : DB) (dest : Dest Row)
    (sqlTable : string) (rule : Rule) : exec (error + string * Rule) :=
  resolved ←
    (if (SQLRepr rule =? "")%string then
       match (if (sqlTable =? "")%string then
                match ParseSchema db dest with
                | inl err => inl err
                | inr schema => inr (Table schema)
                end
              else inr sqlTable) with
       | inl err => Ret (inl err)
       | inr sqlTable =>
           sqlKey ← parseSQLKey db dest (Key rule);
           Ret (inr (sqlTable, withSQLRepr rule (sqlTable +:+ "." +:+ sqlKey)))
       end
     else Ret (inr (sqlTable, rule)));
  match resolved with
  | inl err => Ret (inl err)
  | inr (sqlTable, rule) =>
      let rule :=
        if negb (isNilInterface (NULLReplacement rule)) then
          withSQLRepr rule
            ("COALESCE(" +:+ SQLRepr rule +:+ ", '"
               +:+ fmt_v (NULLReplacement rule) +:+ "')")
        else rule in
      let rule :=
        match SQLType rule with
        | Some ty =>
            withSQLRepr rule ("CAST( " +:+ SQLRepr rule +:+ " AS " +:+ ty +:+ " )")
        | None => rule
        end in
      let rule :=
        if (Order rule =? "")%string then withOrder rule (order p) else rule in
      Ret (inr (sqlTable, rule))
  end.

(** The loop of [setup] from some rule on; the rules come back as the
    loop leaves them in place, also when it returns early. *)
Fixpoint setupLoop (p : Paginator) (db : DB) (dest : Dest Row)
    (sqlTable : string) (rs : list Rule) : exec (list Rule * option error) :=
  match rs with
  | [] => Ret ([], None)
  | rule :: rest =>
      step ← setupRule p db dest sqlTable rule;
      match step with
      | inl err => Ret (rule :: rest, Some err)
      | inr (sqlTable, rule) =>
          '(rest, err) ← setupLoop p db dest sqlTable rest;
          Ret (rule :: rest, err)
      end
  end.

Definition setup (p : Paginator) (db : DB) (dest : Dest Row)
  : exec (Paginator * option error) :=
  '(rs, err) ← setupLoop p db dest "" (rules p);
  Ret (withRules p rs, err).

(** One iteration of the loop that replaces null values. *)
Definition replaceNull (p : Paginator) (acc : exec (list Value)) (i : nat)
  : exec (list Value) :=
  result ← acc;
  v ← deref (result !! i);
  if isNil v then
    rule ← deref (rules p !! i);
    Ret (<[i := NULLReplacement rule]> result)
  else Ret result.

Definition decodeToken (p : Paginator) (token : option string) (dest : Dest Row)
  : exec (list Value * option error) :=
  token ← deref token;
  let '(result, err) := Decode (getDecoderFields p) token dest in
  Ret (result, if notNil err then Some ErrInvalidCursor else None).

Definition DecodeCursor (p : Paginator) (dest : Dest Row)
  : exec (list Value * option error) :=
  '(result, err) ←
    (if isForward p then decodeToken p (After (cursor p)) dest
     else if isBackward p then decodeToken p (Before (cursor p)) dest
     else Ret ([], None));
  result ← foldl (replaceNull p) (Ret result) (seq 0 (length result));
  Ret (result, err).

Definition BuildOrderSQL (p : Paginator) : string :=
  String.concat ", "
    ((fun rule =>
        let order := Order rule in
        let order := if isBackward p then flip order else order in
        SQLRepr rule +:+ " " +:+ order) <$> rules p).

Definition AppendPagingQuery (p : Paginator) (db : DB) (fields : list Value) : DB :=
  let stmt := db in
  let stmt := db_Limit stmt (int_add (limit p) 1) in
  let stmt := db_Order stmt (BuildOrderSQL p) in
  if (0 <? length fields)%nat then
    db_Where stmt (BuildCursorSQLQuery p) (BuildCursorSQLQueryArgs fields)
  else stmt.

Definition EncodeCursor (p : Paginator) (elems : list Row) (hasMore : bool)
  : exec (Cursor * option error) :=
  let encoder := Encode (getEncoderFields p) in
  let result := noCursor in
  after ←
    (if isBackward p || hasMore then
       row ← Index elems (Z.of_nat (length elems) - 1);
       match encoder row with
       | inl err => Ret (inl err)
       | inr c => Ret (inr {| After := Some c; Before := Before result |})
       end
     else Ret (inr result));
  match after with
  | inl err => Ret (noCursor, Some err)
  | inr result =>
      if isForward p || (hasMore && isBackward p) then
        row ← Index elems 0;
        match encoder row with
        | inl err => Ret (noCursor, Some err)
        | inr c => Ret ({| After := After result; Before := Some c |}, None)
        end
      else Ret (result, None)
  end.

(** [GetCursor] returns a cursor and an error, and leaves the page in
    [dest]. *)
Definition GetCursor (p : Paginator) (dest : Dest Row)
  : exec (Dest Row * Cursor * option error) :=
  match dest with
  | DSlice elems =>
      if (0 <? length elems)%nat then
        let hasMore := (limit p <? Z.of_nat (length elems))%Z in
        let elems := if hasMore then take (length elems - 1) elems else elems in
        let elems := if isBackward p then reverse elems else elems in
        '(c, err) ← EncodeCursor p elems hasMore;
        Ret (DSlice elems, c, err)
      else Ret (dest, noCursor, None)
  | DStruct _ => Ret (dest, noCursor, None)
  end.

(** [Paginate] returns the paginator as [setup] leaves it, with the
    page. *)
Definition Paginate (p : Paginator) (db : DB) (dest : Dest Row)
  : exec (Paginator * Page Row) :=
  let abort p err :=
    Ret (p, {| page_result := None; page_cursor := noCursor; page_err := Some err;
               page_dest := dest; page_executed := [] |}) in
  match validate p db dest with
  | Some err => abort p err
  | None =>
      '(p, err) ← setup p db dest;
      match err with
      | Some err => abort p err
      | None =>
          '(fields, err) ← DecodeCursor p dest;
          match err with
          | Some err => abort p err
          | None =>
              let stmt := AppendPagingQuery p db fields in
              let '(result, dest) := Find stmt dest in
              let page c err dest :=
                {| page_result := Some result; page_cursor := c; page_err := err;
                   page_dest := dest; page_executed := [stmt] |} in
              if notNil (Error result) then Ret (p, page noCursor None dest)
              else
                match dest with
                | DSlice elems =>
                    if (0 <? length elems)%nat then
                      let hasMore := (limit p <? Z.of_nat (length elems))%Z in
                      let elems :=
                        if hasMore then take (length elems - 1) elems else elems in
                      let elems := if isBackward p then reverse elems else elems in
                      '(c, err) ← EncodeCursor p elems hasMore;
                      Ret (p, page c err (DSlice elems))
                    else Ret (p, page noCursor None dest)
                | DStruct _ => Ret (p, page noCursor None dest)
                end
          end
      end
  end.
End Paginator.

(** ** paginator_v1.go *)

(** [SqlPaginator] embeds a [Paginator] and declares its own methods. *)
Record SqlPaginator := { embedded : Paginator }.

Module Sql.
Section SqlPaginator.
Context {Row : Type} {collab : Collaborators Row}.

Definition isForward (p : SqlPaginator) : bool :=
  notNil (After (cursor (embedded p))).

Definition isBackward (p : SqlPaginator) : bool :=
  negb (isForward p) && notNil (Before (cursor (embedded p))).

Definition getEncoderFields (p : SqlPaginator) : list EncoderField :=
  (fun rule => (Key rule,
                match CustomType rule with
                | Some ct => Meta ct
                | None => VNil
                end)) <$> rules (embedded p).

Definition getDecoderFields (p : SqlPaginator) : list DecoderField :=
  (fun rule => (Key rule,
                match CustomType rule with
                | Some ct => Some (TypeOf ct)
                | None => None
                end)) <$> rules (embedded p).

Definition replaceNull (p : SqlPaginator) (acc : exec (list Value)) (i : nat)
  : exec (list Value) :=
  result ← acc;
  v ← deref (result !! i);
  if isNil v then
    rule ← deref (rules (embedded p) !! i);
    Ret (<[i := NULLReplacement rule]> result)
  else Ret result.

Definition decodeToken (p : SqlPaginator) (token : option string) (dest : Dest Row)
  : exec (list Value * option error) :=
  token ← deref token;
  let '(result, err) := Decode (getDecoderFields p) token dest in
  Ret (result, if notNil err then Some ErrInvalidCursor else None).

Definition DecodeCursor (p : SqlPaginator) (dest : Dest Row)
  : exec (list Value * option error) :=
  '(result, err) ←
    (if isForward p then decodeToken p (After (cursor (embedded p))) dest
     else if isBackward p then decodeToken p (Before (cursor (embedded p))) dest
     else Ret ([], None));
  result ← foldl (replaceNull p) (Ret result) (seq 0 (length result));
  Ret (result, err).

Definition BuildOrderSQL (p : SqlPaginator) : string :=
  String.concat ", "
    ((fun rule =>
        let order := Order rule in
        let order := if isBackward p then flip order else order in
        SQLRepr rule +:+ " " +:+ order) <$> rules (embedded p)).

Definition cursorQueryStep (p : SqlPaginator) (st : list string * string)
    (rule : Rule) : list string * string :=
  let '(queries, query) := st in
  let operator :=
    if (isForward p && (Order rule =? ASC)%string)
       || (isBackward p && (Order rule =? DESC)%string)
    then ">" else "<" in
  (queries ++ [query +:+ SQLRepr rule +:+ " " +:+ operator +:+ " ?"],
   query +:+ SQLRepr rule +:+ " = ? AND ").

Definition BuildCursorSQLQuery (p : SqlPaginator) : string :=
  String.concat " OR "
    (fst (fold_left (cursorQueryStep p) (rules (embedded p)) ([], ""))).

Definition BuildCursorSQLQueryArgs (fields : list Value) : list Value :=
  fold_left (fun args i => args ++ take i fields) (seq 1 (length fields)) [].

Definition EncodeCursor (p : SqlPaginator) (elems : list Row) (hasMore : bool)
  : exec (Cursor * option error) :=
  let encoder := Encode (getEncoderFields p) in
  let result := noCursor in
  after ←
    (if isBackward p || hasMore then
       row ← Index elems (Z.of_nat (length elems) - 1);
       match encoder row with
       | inl err => Ret (inl err)
       | inr c => Ret (inr {| After := Some c; Before := Before result |})
       end
     else Ret (inr result));
  match after with
  | inl err => Ret (noCursor, Some err)
  | inr result =>
      if isForward p || (hasMore && isBackward p) then
        row ← Index elems 0;
        match encoder row with
        | inl err => Ret (noCursor, Some err)
        | inr c => Ret ({| After := After result; Before := Some c |}, None)
        end
      else Ret (result, None)
  end.

Definition GetCursor (p : SqlPaginator) (dest : Dest Row)
  : exec (Dest Row * Cursor * option error) :=
  match dest with
  | DSlice elems =>
      if (0 <? length elems)%nat then
        let hasMore := (limit (embedded p) <? Z.of_nat (length elems))%Z in
        let elems := if hasMore then take (length elems - 1) elems else elems in
        let elems := if isBackward p then reverse elems else elems in
        '(c, err) ← EncodeCursor p elems hasMore;
        Ret (DSlice elems, c, err)
      else Ret (dest, noCursor, None)
  | DStruct _ => Ret (dest, noCursor, None)
  end.
End SqlPaginator.
End Sql.

(** ** The seek predicate in the words of the specification *)

(** The comparison operator of a rule. *)
Definition comparator (p : Paginator) (rule : Rule) : string :=
  if (isForward p && (Order rule =? ASC)%string)
     || (isBackward p && (Order rule =? DESC)%string)
  then ">" else "<".

(** Equality placeholders on a run of rules, each followed by [AND]. *)
Definition equalities (rs : list Rule) : string :=
  foldr (fun rule rest => (SQLRepr rule +:+ " = ? AND ") +:+ rest) "" rs.

(** Clause [i]: equality on the rules before [i], the comparator on rule [i]. *)
Definition seekClause (p : Paginator) (i : nat) (rule : Rule) : string :=
  equalities (take i (rules p))
    +:+ SQLRepr rule +:+ " " +:+ comparator p rule +:+ " ?".

(** The arguments of clause [i]: [values[0..i]]. *)
Definition clauseArgs (values : list Value) (i : nat) : list Value :=
  take (S i) values.

(** ** The orchestrator in the words of the specification *)

Section Specification.
Context {Row : Type} {collab : Collaborators Row}.

(** The ORDER BY list: one (expression, direction) pair per rule, the
    direction flipped when the traversal is backward. *)
Definition buildOrder (p : Paginator) : list (string * OrderT) :=
  (fun rule =>
     (SQLRepr rule, if isBackward p then flip (Order rule) else Order rule))
    <$> rules p.

Definition orderEntry (entry : string * OrderT) : string :=
  entry.1 +:+ " " +:+ entry.2.

(** Decoded values with the absent positions backfilled per rule. *)
Definition backfill (rs : list Rule) (decoded : list Value) : list Value :=
  zip_with (fun rule v => if isNil v then NULLReplacement rule else v) rs decoded.

(** NULL-replacement wrapping and the cast of a physical expression. *)
Definition nullWrap (replacement : Value) (expr : string) : string :=
  if isNilInterface replacement then expr
  else "COALESCE(" +:+ expr +:+ ", '" +:+ fmt_v replacement +:+ "')".

Definition castWrap (sqlType : option string) (expr : string) : string :=
  match sqlType with
  | Some ty => "CAST( " +:+ expr +:+ " AS " +:+ ty +:+ " )"
  | None => expr
  end.

(** A rule after resolution against a schema: the order default, the
    column of the key when no expression was supplied, then the NULL
    wrapping, then the cast. *)
Definition resolveRule (schema : Schema) (default : OrderT) (rule : Rule)
  : option Rule :=
  let o := if (Order rule =? "")%string then default else Order rule in
  expr ← (if (SQLRepr rule =? "")%string then
            field ← LookUpField schema (Key rule);
            Some (Table schema +:+ "." +:+ DBName field)
          else Some (SQLRepr rule));
  Some (withOrder
          (withSQLRepr rule
             (castWrap (SQLType rule) (nullWrap (NULLReplacement rule) expr)))
          o).

(** The request passes validation, setup and cursor decoding, and the
    query engine answers the statement built from the decoded [fields] with
    the handle [result] and the contents [fetched] of [dest]. *)
Definition reachesEngine (p : Paginator) (db : DB) (dest : Dest Row)
    (p' : Paginator) (fields : list Value) (result : DB) (fetched : Dest Row)
  : Prop :=
  validate p db dest = None
  ∧ setup p db dest = Ret (p', None)
  ∧ DecodeCursor p' dest = Ret (fields, None)
  ∧ Find (AppendPagingQuery p' db fields) dest = (result, fetched).

(** The page of a request whose statement [stmt] the engine answered. *)
Definition answered (stmt result : DB) (c : Cursor) (err : option error)
    (dest : Dest Row) : Page Row :=
  {| page_result := Some result; page_cursor := c; page_err := err;
     page_dest := dest; page_executed := [stmt] |}.

(** The page of a request that stops before the query engine is asked. *)
Definition aborted (dest : Dest Row) (err : error) : Page Row :=
  {| page_result := None; page_cursor := noCursor; page_err := Some err;
     page_dest := dest; page_executed := [] |}.
End Specification.

(** ** A concrete setting *)

Module Demo.
(** Rows are named by a string; the codec wraps the name of a row. *)
Definition Row : Type := string.

Definition schema : Schema :=
  {| Table := "users"; LookUpField := fun key => Some {| DBName := key |} |}.

Definition fmt (v : Value) : string :=
  match v with
  | VString s => s
  | VBool true => "true"
  | VBool false => "false"
  | VInt n => pretty n
  | _ => "<nil>"
  end.

(** The collaborators, given what the query engine and the schema parser
    answer.  The codec refuses the empty token and the row without a name,
    and decodes the token [null] to nil at every position. *)
Definition engine (find : DB -> Dest Row -> DB * Dest Row) (parsed : error + Schema)
  : Collaborators Row :=
  {| flip := fun o => if (o =? ASC)%string then DESC else ASC;
     order_validate := fun o =>
       if (o =? ASC)%string || (o =? DESC)%string then None
       else Some (ErrOther "invalid order");
     rule_validate := fun _ _ rule =>
       if (Key rule =? "")%string then Some (ErrOther "invalid rule") else None;
     ParseSchema := fun _ _ => parsed;
     Decode := fun fields token _ =>
       if (token =? "")%string then ([], Some (ErrOther "malformed"))
       else ((fun _ => if (token =? "null")%string then VNil else VString token)
               <$> fields, None);
     Encode := fun _ row =>
       if (row =? "")%string then inl (ErrOther "unencodable")
       else inr ("cursor:" +:+ row);
     Find := find;
     fmt_v := fmt |}.

Definition answer (rows : list Row) (db : DB) (_ : Dest Row) : DB * Dest Row :=
  (db, DSlice rows).

Definition refuse (db : DB) (dest : Dest Row) : DB * Dest Row :=
  ({| Statement := Statement db; Error := Some (ErrOther "connection refused") |},
   dest).

(** An engine that holds three rows, one that holds none, one whose only
    row cannot be encoded, one that is down, and one without a schema. *)
Definition up : Collaborators Row := engine (answer ["r1"; "r2"; "r3"]) (inr schema).
Definition empty : Collaborators Row := engine (answer []) (inr schema).
Definition unnamed : Collaborators Row := engine (answer [""]) (inr schema).
Definition down : Collaborators Row := engine refuse (inr schema).
Definition noschema : Collaborators Row :=
  engine (answer []) (inl (ErrOther "unknown schema")).

Definition rule (key : string) (o : OrderT) : Rule :=
  {| Key := key; Order := o; SQLRepr := key; SQLType := None;
     NULLReplacement := VNil; CustomType := None |}.

Definition db : DB := {| Statement := []; Error := None |}.

Definition dest : Dest Row := DSlice [].

(** No rule and no page size. *)
Definition norules : Paginator :=
  {| cursor := noCursor; rules := []; limit := 0; order := ASC |}.

(** One rule, no page size. *)
Definition nolimit : Paginator :=
  {| cursor := noCursor; rules := [rule "a" ASC]; limit := 0; order := ASC |}.

(** One rule, no order on the paginator. *)
Definition noorder : Paginator :=
  {| cursor := noCursor; rules := [rule "a" ASC]; limit := 2; order := "" |}.

(** A second rule without a key. *)
Definition nokey : Paginator :=
  {| cursor := noCursor; rules := [rule "a" ASC; rule "" ASC]; limit := 2;
     order := ASC |}.

(** The three rules, traversed backward from a token. *)
Definition back : Paginator :=
  {| cursor := {| After := None; Before := Some "t" |};
     rules := [rule "a" ASC; rule "b" ASC; rule "c" ASC];
     limit := 2; order := ASC |}.

(** The three rules with a token the codec refuses. *)
Definition badtoken : Paginator :=
  {| cursor := {| After := Some ""; Before := None |};
     rules := [rule "a" ASC; rule "b" ASC; rule "c" ASC];
     limit := 2; order := ASC |}.

(** A rule to resolve from its key, with a NULL replacement and a cast. *)
Definition name : Rule :=
  {| Key := "name"; Order := ""; SQLRepr := ""; SQLType := Some "TEXT";
     NULLReplacement := VString "zzz"; CustomType := None |}.

Definition byname : Paginator :=
  {| cursor := {| After := Some "null"; Before := Some "t" |};
     rules := [name]; limit := 2; order := DESC |}.

(** Three ascending rules, traversed forward. *)
Definition abc : Paginator :=
  {| cursor := {| After := Some "t"; Before := None |};
     rules := [rule "a" ASC; rule "b" ASC; rule "c" ASC];
     limit := 2; order := ASC |}.
End Demo.

(** ** The remaining methods of paginator.go *)

(** [SetRules] stores a copy of the rules it is given. *)
Definition SetRules (p : Paginator) (rs : list Rule) : Paginator :=
  {| cursor := cursor p; rules := rs; limit := limit p; order := order p |}.

(** [SetKeys] makes one rule per key, every other field at its zero value. *)
Definition SetKeys (p : Paginator) (keys : list string) : Paginator :=
  let rs :=
    (fun key => {| Key := key; Order := ""; SQLRepr := ""; SQLType := None;
                   NULLReplacement := VNil; CustomType := None |}) <$> keys in
  SetRules p rs.

Definition SetLimit (p : Paginator) (n : Z) : Paginator :=
  {| cursor := cursor p; rules := rules p; limit := n; order := order p |}.

Definition SetOrder (p : Paginator) (o : OrderT) : Paginator :=
  {| cursor := cursor p; rules := rules p; limit := limit p; order := o |}.

Definition SetAfterCursor (p : Paginator) (afterCursor : string) : Paginator :=
  {| cursor := {| After := Some afterCursor; Before := Before (cursor p) |};
     rules := rules p; limit := limit p; order := order p |}.

Definition SetBeforeCursor (p : Paginator) (beforeCursor : string) : Paginator :=
  {| cursor := {| After := After (cursor p); Before := Some beforeCursor |};
     rules := rules p; limit := limit p; order := order p |}.

Section Methods.
Context {Row : Type} {collab : Collaborators Row}.

(** [AppendPaginationQuery] returns the paginator as [setup] leaves it, with
    its three results: the statement, a cursor and an error. *)
Definition AppendPaginationQuery (p : Paginator) (db : DB) (dest : Dest Row)
  : exec (Paginator * (option DB * Cursor * option error)) :=
  match validate p db dest with
  | Some err => Ret (p, (None, noCursor, Some err))
  | None =>
      '(p, err) ← setup p db dest;
      match err with
      | Some err => Ret (p, (None, noCursor, Some err))
      | None =>
          '(fields, err) ← DecodeCursor p dest;
          match err with
          | Some err => Ret (p, (None, noCursor, Some err))
          | None =>
              let result := AppendPagingQuery p db fields in
              if notNil (Error result) then Ret (p, (Some result, noCursor, None))
              else Ret (p, (Some result, noCursor, None))
          end
      end
  end.

(** A rule as [setup] leaves it when it does not have to look its key up:
    the supplied expression wrapped, the order defaulted. *)
Definition wrapRule (p : Paginator) (rule : Rule) : Rule :=
  withOrder
    (withSQLRepr rule
       (castWrap (SQLType rule) (nullWrap (NULLReplacement rule) (SQLRepr rule))))
    (if (Order rule =? "")%string then order p else Order rule).

(** The value [DecodeCursor] leaves at position [i] for the decoded value
    [v], when it leaves one. *)
Definition backfilled (p : Paginator) (i : nat) (v : Value) : option Value :=
  if isNil v then NULLReplacement <$> rules p !! i else Some v.
End Methods.

(** The fields of a rule that [setup] never writes. *)
Definition sameIdentity (rule rule' : Rule) : Prop :=
  Key rule' = Key rule ∧ SQLType rule' = SQLType rule
  ∧ NULLReplacement rule' = NULLReplacement rule
  ∧ CustomType rule' = CustomType rule.

(** The number of [?] placeholders in a piece of SQL. *)
Fixpoint placeholders (sql : string) : nat :=
  match sql with
  | EmptyString => 0
  | String c rest => (if (String c "" =? "?")%string then 1 else 0) + placeholders rest
  end.

(** ** Further concrete settings *)

Module Cases.
(** A paginator made from keys only. *)
Definition bykeys : Paginator :=
  SetKeys {| cursor := noCursor; rules := []; limit := 2; order := DESC |}
    ["id"; "name"].

(** A schema that knows the column [id] only. *)
Definition idonly : Schema :=
  {| Table := "users";
     LookUpField := fun key =>
       if (key =? "id")%string then Some {| DBName := "id" |} else None |}.

Definition partial : Collaborators Demo.Row :=
  Demo.engine (Demo.answer []) (inr idonly).

(** A decoder that returns one value more than it has fields: nil for the
    token [null], the token itself otherwise. *)
Definition overlong : Collaborators Demo.Row :=
  {| flip := @flip _ Demo.up;
     order_validate := @order_validate _ Demo.up;
     rule_validate := @rule_validate _ Demo.up;
     ParseSchema := @ParseSchema _ Demo.up;
     Decode := fun fields token _ =>
       (((fun _ => VString "v") <$> fields)
          ++ [if (token =? "null")%string then VNil else VString token], None);
     Encode := @Encode _ Demo.up;
     Find := @Find _ Demo.up;
     fmt_v := @fmt_v _ Demo.up |}.

(** A supplied expression first, then a rule to resolve from its key. *)
Definition uid : Rule :=
  {| Key := "id"; Order := ""; SQLRepr := "u.id"; SQLType := None;
     NULLReplacement := VInt 0; CustomType := None |}.

Definition mixed : Paginator :=
  {| cursor := noCursor; rules := [uid; Demo.name]; limit := 2; order := ASC |}.

(** Descending rules, traversed backward. *)
Definition newest : Paginator :=
  {| cursor := {| After := None; Before := Some "t" |};
     rules := [Demo.rule "created_at" DESC; Demo.rule "id" DESC];
     limit := 2; order := DESC |}.

(** The three rules of [Demo.abc], without a cursor. *)
Definition first : Paginator :=
  {| cursor := noCursor;
     rules := [Demo.rule "a" ASC; Demo.rule "b" ASC; Demo.rule "c" ASC];
     limit := 2; order := ASC |}.

(** One rule and the largest page size an int holds. *)
Definition hugelimit : Paginator :=
  {| cursor := noCursor; rules := [Demo.rule "a" ASC];
     limit := 9223372036854775807; order := ASC |}.

(** One rule and a page size of zero. *)
Definition unchecked : Paginator :=
  {| cursor := noCursor; rules := [Demo.rule "a" ASC]; limit := 0; order := ASC |}.
End Cases.

(** * Properties *)

Lemma append_nil_l (s : string) : "" +:+ s = s.
Proof. reflexivity. Qed.

Lemma append_cons (ch : Ascii.ascii) (a b : string) :
  String ch a +:+ b = String ch (a +:+ b).
Proof. reflexivity. Qed.

Lemma append_assoc (a b c : string) : (a +:+ b) +:+ c = a +:+ b +:+ c.
Proof.
  induction a as [|ch a IH]; [done |].
  by rewrite !append_cons, IH.
Qed.

Lemma append_nil_r (s : string) : s +:+ "" = s.
Proof.
  induction s as [|ch s IH]; [done |].
  by rewrite append_cons, IH.
Qed.

Lemma fold_left_app_acc {A B} (f : B -> list A) (l : list B) (acc : list A) :
  fold_left (fun args i => args ++ f i) l acc = acc ++ List.concat (map f l).
Proof.
  revert acc. induction l as [|i l IH]; intros acc; simpl.
  - by rewrite app_nil_r.
  - by rewrite IH, app_assoc.
Qed.

Section QueryBuilder.
Variable p : Paginator.

Lemma cursorQueryStep_operator st rule :
  cursorQueryStep p st rule =
    (st.1 ++ [st.2 +:+ SQLRepr rule +:+ " " +:+ comparator p rule +:+ " ?"],
     st.2 +:+ SQLRepr rule +:+ " = ? AND ").
Proof. by destruct st. Qed.

Lemma cursorQuery_loop (rs : list Rule) (queries : list string) (query : string) :
  fold_left (cursorQueryStep p) rs (queries, query) =
    (queries ++ imap (fun i rule =>
                        query +:+ equalities (take i rs)
                          +:+ SQLRepr rule +:+ " " +:+ comparator p rule +:+ " ?") rs,
     query +:+ equalities rs).
Proof.
  revert queries query. induction rs as [|rule rs IH]; intros queries query.
  - simpl. by rewrite app_nil_r, append_nil_r.
  - cbn [fold_left]. rewrite cursorQueryStep_operator, IH.
    cbn [fst snd]. rewrite imap_cons, <- app_assoc.
    cbn [take equalities foldr app]. rewrite append_nil_l.
    f_equal; [f_equal; f_equal |].
    + apply imap_ext. intros i r _. cbn [compose take equalities foldr].
      by rewrite !append_assoc.
    + by rewrite !append_assoc.
Qed.

Lemma BuildCursorSQLQuery_clauses :
  BuildCursorSQLQuery p = String.concat " OR " (imap (seekClause p) (rules p)).
Proof.
  unfold BuildCursorSQLQuery. rewrite cursorQuery_loop. cbn [fst app].
  f_equal.
Qed.

Lemma comparator_gt rule :
  (isForward p = true ∧ Order rule = ASC) ∨ (isBackward p = true ∧ Order rule = DESC) →
  comparator p rule = ">".
Proof.
  unfold comparator. intros [[-> ->] | [-> ->]]; simpl.
  - done.
  - by rewrite orb_true_r.
Qed.

Lemma comparator_lt rule :
  ¬ ((isForward p = true ∧ Order rule = ASC) ∨ (isBackward p = true ∧ Order rule = DESC)) →
  comparator p rule = "<".
Proof.
  unfold comparator. intros Hno.
  destruct (isForward p) eqn:Hf, (isBackward p) eqn:Hb,
    (String.eqb_spec (Order rule) ASC), (String.eqb_spec (Order rule) DESC);
    simpl; try done; exfalso; apply Hno; auto.
Qed.

Lemma BuildCursorSQLQueryArgs_clauses (values : list Value) :
  BuildCursorSQLQueryArgs values =
    List.concat (map (clauseArgs values) (seq 0 (length values))).
Proof.
  unfold BuildCursorSQLQueryArgs. rewrite fold_left_app_acc. simpl.
  by rewrite <- seq_shift, map_map.
Qed.
End QueryBuilder.

(** C1: for n >= 1 rules and n decoded values, the WHERE predicate is the
    disjunction, in rule order, of the clauses "equality placeholders on
    rules 0..i-1, then the comparator placeholder on rule i"; the comparator is
    ">" when the traversal is forward and the rule ascending, or backward and
    the rule descending, and "<" otherwise; the arguments are values[0..i] for
    each clause i in order. *)
Theorem C1_seek_predicate (p : Paginator) (values : list Value) :
  1 ≤ length (rules p) →
  length values = length (rules p) →
  BuildCursorSQLQuery p = String.concat " OR " (imap (seekClause p) (rules p))
  ∧ (∀ rule,
       let wants_gt :=
         (isForward p = true ∧ Order rule = ASC)
         ∨ (isBackward p = true ∧ Order rule = DESC) in
       (wants_gt → comparator p rule = ">") ∧ (¬ wants_gt → comparator p rule = "<"))
  ∧ BuildCursorSQLQueryArgs values =
      List.concat (map (clauseArgs values) (seq 0 (length (rules p)))).
Proof.
  intros _ Hlen. split; [apply BuildCursorSQLQuery_clauses | split].
  - intros rule wants_gt. split; [apply comparator_gt | apply comparator_lt].
  - rewrite <- Hlen. apply BuildCursorSQLQueryArgs_clauses.
Qed.

Lemma C1_seek_predicate_witness :
  BuildCursorSQLQuery Demo.abc = "a > ? OR a = ? AND b > ? OR a = ? AND b = ? AND c > ?"
  ∧ BuildCursorSQLQueryArgs [VInt 1; VInt 2; VInt 3] =
      [VInt 1; VInt 1; VInt 2; VInt 1; VInt 2; VInt 3].
Proof.
  destruct (C1_seek_predicate Demo.abc [VInt 1; VInt 2; VInt 3]) as (Hq & _ & Ha);
    [simpl; lia | reflexivity |].
  rewrite Hq, Ha. split; reflexivity.
Defined.

Lemma int_add_exact (a b : Z) :
  (- 2 ^ 63 ≤ a + b ≤ max_int)%Z → int_add a b = (a + b)%Z.
Proof.
  unfold int_add, wrap_int, max_int. intros Hrange.
  rewrite Z.mod_small; lia.
Qed.

Section Orchestrator.
Context {Row : Type} {collab : Collaborators Row}.

Lemma BuildOrderSQL_entries (p : Paginator) :
  BuildOrderSQL p = String.concat ", " (orderEntry <$> buildOrder p).
Proof.
  unfold BuildOrderSQL, buildOrder. by rewrite <- list_fmap_compose.
Qed.

Lemma buildOrder_lookup (p : Paginator) (i : nat) (rule : Rule) :
  rules p !! i = Some rule →
  buildOrder p !! i =
    Some (SQLRepr rule, if isBackward p then flip (Order rule) else Order rule).
Proof. intros Hi. unfold buildOrder. by rewrite list_lookup_fmap, Hi. Qed.

Lemma concat_not_empty (sep first : string) (l : list string) :
  first ≠ "" → String.concat sep (first :: l) ≠ "".
Proof.
  intros Hfirst. destruct first as [|c first]; [done |].
  destruct l as [|second l]; [done |].
  change (String.concat sep (String c first :: second :: l))
    with (String c first +:+ sep +:+ String.concat sep (second :: l)).
  by rewrite append_cons.
Qed.

Lemma BuildOrderSQL_not_empty (p : Paginator) :
  rules p ≠ [] → (BuildOrderSQL p =? "")%string = false.
Proof.
  intros Hrules. apply String.eqb_neq. unfold BuildOrderSQL.
  destruct (rules p) as [|rule rs]; [done |]. cbn [fmap list_fmap].
  apply concat_not_empty. destruct (SQLRepr rule); [done |]. by rewrite append_cons.
Qed.

Lemma BuildOrderSQL_no_rules (p : Paginator) :
  rules p = [] → BuildOrderSQL p = "".
Proof. unfold BuildOrderSQL. by intros ->. Qed.

Lemma int_add_max_int : int_add max_int 1 = (- 2 ^ 63)%Z.
Proof. reflexivity. Qed.

(** C4, as the code has it: the statement always gets a LIMIT of Go's sum
    limit + 1, which is limit + 1 as long as limit is below the largest int
    and wraps around to the smallest int at the largest; with at least one rule
    it gets an ORDER BY with one (expression, direction) entry per rule in rule
    order, the direction being the rule's order, flipped exactly when the
    traversal is backward (without a rule the order string is empty and gorm
    adds no ORDER BY); a WHERE predicate is attached exactly when the decoded
    tuple is not empty, so that without a cursor only LIMIT and ORDER BY are
    added. *)
Theorem C4_query_construction (p : Paginator) (db : DB) (fields : list Value) :
  ∃ added,
    Statement (AppendPagingQuery p db fields) = Statement db ++ added
    ∧ added =
        [Limit (int_add (limit p) 1)]
        ++ (if decide (rules p = []) then []
            else [OrderBy (String.concat ", " (orderEntry <$> buildOrder p))])
        ++ (if decide (fields = []) then []
            else [Where (BuildCursorSQLQuery p) (BuildCursorSQLQueryArgs fields)])
    ∧ ((- 2 ^ 63 ≤ limit p < max_int)%Z → int_add (limit p) 1 = (limit p + 1)%Z)
    ∧ (limit p = max_int → int_add (limit p) 1 = (- 2 ^ 63)%Z)
    ∧ length (buildOrder p) = length (rules p)
    ∧ (∀ i rule,
         rules p !! i = Some rule →
         buildOrder p !! i =
           Some (SQLRepr rule, if isBackward p then flip (Order rule) else Order rule))
    ∧ ((∃ query args, Where query args ∈ added) ↔ fields ≠ [])
    ∧ (fields = [] → rules p ≠ [] →
       added = [Limit (int_add (limit p) 1); OrderBy (BuildOrderSQL p)]).
Proof.
  eexists. split; [| split; [reflexivity |]].
  - unfold AppendPagingQuery, db_Order. cbv zeta.
    destruct (decide (rules p = [])) as [Hnone | Hsome].
    + rewrite (BuildOrderSQL_no_rules p Hnone). cbn [String.eqb].
      destruct fields as [|v fields]; cbn.
      * done.
      * by rewrite <- !app_assoc.
    + rewrite (BuildOrderSQL_not_empty p Hsome), BuildOrderSQL_entries.
      destruct fields as [|v fields]; cbn.
      * by rewrite <- !app_assoc.
      * by rewrite <- !app_assoc.
  - split; [intros Hrange; apply int_add_exact; unfold max_int in *; lia |].
    split; [intros ->; apply int_add_max_int |].
    split; [unfold buildOrder; by rewrite length_fmap |].
    split; [apply buildOrder_lookup |].
    split.
    + destruct fields as [|v fields], (decide (rules p = [])); cbn.
      * split; [| done]. intros (query & args & Hin).
        apply list_elem_of_In in Hin. cbn in Hin.
        destruct Hin as [Hin | []]; discriminate Hin.
      * split; [| done]. intros (query & args & Hin).
        apply list_elem_of_In in Hin. cbn in Hin.
        destruct Hin as [Hin | [Hin | []]]; discriminate Hin.
      * split; [done |]. intros _. eexists _, _.
        apply list_elem_of_In. cbn. right. left. reflexivity.
      * split; [done |]. intros _. eexists _, _.
        apply list_elem_of_In. cbn. right. right. left. reflexivity.
    + intros -> Hsome. rewrite decide_False by done. cbn.
      by rewrite BuildOrderSQL_entries.
Qed.

Lemma validateRules_None (db : DB) (dest : Dest Row) (rs : list Rule) :
  validateRules db dest rs = None ↔
  Forall (fun rule => rule_validate db dest rule = None) rs.
Proof.
  induction rs as [|rule rs IH]; simpl.
  - split; [constructor | done].
  - destruct (rule_validate db dest rule) eqn:Hrule.
    + split; [done |]. intros Hall. inversion Hall; congruence.
    + rewrite IH. split; [by constructor | by inversion 1].
Qed.

Lemma validateRules_first_failure (db : DB) (dest : Dest Row)
    (passed rest : list Rule) (rule : Rule) (err : error) :
  Forall (fun r => rule_validate db dest r = None) passed →
  rule_validate db dest rule = Some err →
  validateRules db dest (passed ++ rule :: rest) = Some err.
Proof.
  intros Hpassed Hrule. induction Hpassed as [|r passed Hr _ IH]; simpl.
  - by rewrite Hrule.
  - by rewrite Hr.
Qed.

Lemma validate_None_limit (p : Paginator) (db : DB) (dest : Dest Row) :
  validate p db dest = None → (0 < limit p)%Z.
Proof.
  unfold validate. destruct (length (rules p) =? 0)%nat; [done |].
  by destruct (Z.leb_spec (limit p) 0).
Qed.

(** C8: validation reports NoRule for an empty rule set (whatever the
    limit), else InvalidLimit for a limit <= 0, else the error of the
    paginator order's validation, else the error of the first rule that
    fails its validation, and succeeds exactly when none of these fail. *)
Theorem C8_validate_order (p : Paginator) (db : DB) (dest : Dest Row) :
  (rules p = [] → validate p db dest = Some ErrNoRule)
  ∧ (rules p ≠ [] → (limit p ≤ 0)%Z → validate p db dest = Some ErrInvalidLimit)
  ∧ (∀ err,
       rules p ≠ [] → (0 < limit p)%Z →
       order_validate (order p) = Some err →
       validate p db dest = Some err)
  ∧ (∀ passed rule rest err,
       rules p = passed ++ rule :: rest → (0 < limit p)%Z →
       order_validate (order p) = None →
       Forall (fun r => rule_validate db dest r = None) passed →
       rule_validate db dest rule = Some err →
       validate p db dest = Some err)
  ∧ (validate p db dest = None ↔
     rules p ≠ [] ∧ (0 < limit p)%Z ∧ order_validate (order p) = None
     ∧ Forall (fun r => rule_validate db dest r = None) (rules p)).
Proof.
  unfold validate. repeat split.
  - by intros ->.
  - intros Hrules Hlimit. destruct (rules p); [done |]. simpl.
    by rewrite (proj2 (Z.leb_le _ _) Hlimit).
  - intros err Hrules Hlimit Horder. destruct (rules p); [done |]. simpl.
    rewrite (proj2 (Z.leb_gt _ _) Hlimit). by rewrite Horder.
  - intros passed rule rest err Hrules Hlimit Horder Hpassed Hrule.
    rewrite Hrules. destruct passed; simpl;
      rewrite (proj2 (Z.leb_gt _ _) Hlimit), Horder.
    + simpl. by rewrite Hrule.
    + by apply (validateRules_first_failure db dest (r :: passed)).
  - destruct (rules p); [done |]. done.
  - destruct (rules p); [done |]. simpl in *.
    destruct (Z.leb_spec (limit p) 0); [done | lia].
  - destruct (rules p) as [|r rs]; [done |]. simpl in *.
    destruct (Z.leb_spec (limit p) 0); [done |].
    by destruct (order_validate (order p)).
  - destruct (rules p) as [|r rs]; [done |]. simpl length in *. cbn [Nat.eqb] in *.
    destruct (Z.leb_spec (limit p) 0); [done |].
    destruct (order_validate (order p)); [done |].
    by apply validateRules_None.
  - intros (Hrules & Hlimit & Horder & Hall).
    destruct (rules p) as [|r rs]; [done |]. cbn [length Nat.eqb].
    rewrite (proj2 (Z.leb_gt _ _) Hlimit), Horder.
    by apply validateRules_None.
Qed.
End Orchestrator.

Lemma C4_query_construction_witness :
  Statement (AppendPagingQuery (collab := Demo.up) Demo.abc Demo.db []) =
    [Limit 3; OrderBy "a ASC, b ASC, c ASC"]
  ∧ Statement (AppendPagingQuery (collab := Demo.up) Cases.hugelimit Demo.db []) =
      [Limit (- 2 ^ 63); OrderBy "a ASC"].
Proof.
  split.
  - destruct (C4_query_construction (collab := Demo.up) Demo.abc Demo.db [])
      as (added & Hstmt & Hadded & Hlimit & _).
    rewrite Hstmt, Hadded, Hlimit; [reflexivity | unfold max_int; simpl; lia].
  - destruct (C4_query_construction (collab := Demo.up) Cases.hugelimit Demo.db [])
      as (added & Hstmt & Hadded & _ & Hwrap & _).
    rewrite Hstmt, Hadded, Hwrap; reflexivity.
Defined.

(** C4 does not hold as stated: with the largest int as limit, which
    validation accepts, the LIMIT of the statement is the smallest int and not
    limit + 1. *)
Lemma C4_limit_wraps_at_max_int :
  validate (collab := Demo.up) Cases.hugelimit Demo.db Demo.dest = None
  ∧ Statement (AppendPagingQuery (collab := Demo.up) Cases.hugelimit Demo.db []) =
      [Limit (-9223372036854775808); OrderBy "a ASC"]
  ∧ (-9223372036854775808)%Z ≠ (limit Cases.hugelimit + 1)%Z.
Proof. split; [reflexivity | split; [reflexivity | done]]. Qed.

Lemma C8_validate_order_witness :
  validate (collab := Demo.up) Demo.norules Demo.db Demo.dest = Some ErrNoRule
  ∧ validate (collab := Demo.up) Demo.nolimit Demo.db Demo.dest
    = Some ErrInvalidLimit
  ∧ validate (collab := Demo.up) Demo.noorder Demo.db Demo.dest
    = Some (ErrOther "invalid order")
  ∧ validate (collab := Demo.up) Demo.nokey Demo.db Demo.dest
    = Some (ErrOther "invalid rule")
  ∧ validate (collab := Demo.up) Demo.abc Demo.db Demo.dest = None.
Proof.
  pose proof (C8_validate_order (collab := Demo.up)) as C8.
  split; [| split; [| split; [| split]]].
  - apply (proj1 (C8 Demo.norules Demo.db Demo.dest)). reflexivity.
  - apply (proj1 (proj2 (C8 Demo.nolimit Demo.db Demo.dest))); [done | simpl; lia].
  - apply (proj1 (proj2 (proj2 (C8 Demo.noorder Demo.db Demo.dest))));
      [done | simpl; lia | reflexivity].
  - apply (proj1 (proj2 (proj2 (proj2 (C8 Demo.nokey Demo.db Demo.dest))))
             [Demo.rule "a" ASC] (Demo.rule "" ASC) []);
      [reflexivity | simpl; lia | reflexivity | | reflexivity].
    constructor; [reflexivity | constructor].
  - apply (proj2 (proj2 (proj2 (proj2 (C8 Demo.abc Demo.db Demo.dest))))).
    split; [done | split; [simpl; lia | split; [reflexivity |]]].
    repeat constructor.
Defined.

Section Decoding.
Context {Row : Type} {collab : Collaborators Row}.
Variable p : Paginator.

Lemma replaceNull_step (cur : list Value) (i : nat) :
  i < length cur → length cur ≤ length (rules p) →
  ∃ rule v,
    rules p !! i = Some rule ∧ cur !! i = Some v
    ∧ replaceNull p (Ret cur) i =
        Ret (<[i := if isNil v then NULLReplacement rule else v]> cur).
Proof.
  intros Hi Hlen.
  destruct (lookup_lt_is_Some_2 cur i Hi) as [v Hv].
  destruct (lookup_lt_is_Some_2 (rules p) i ltac:(lia)) as [rule Hrule].
  exists rule, v. split; [done | split; [done |]].
  unfold replaceNull. cbn. rewrite Hv. cbn.
  destruct (isNil v).
  - rewrite Hrule. reflexivity.
  - by rewrite list_insert_id.
Qed.

Lemma replaceNull_loop (n k : nat) (cur : list Value) :
  k + n ≤ length cur → length cur ≤ length (rules p) →
  ∃ out,
    foldl (replaceNull p) (Ret cur) (seq k n) = Ret out
    ∧ ∀ j, out !! j =
             if decide (k ≤ j < k + n) then backfill (rules p) cur !! j
             else cur !! j.
Proof.
  revert k cur. induction n as [|n IH]; intros k cur Hk Hlen.
  - exists cur. split; [done |]. intros j. case_decide; [lia | done].
  - destruct (replaceNull_step cur k) as (rule & v & Hrule & Hv & Hstep);
      [lia | done |].
    cbn [seq foldl]. rewrite Hstep.
    destruct (IH (S k) (<[k := if isNil v then NULLReplacement rule else v]> cur))
      as (out & Hout & Hlookup); [rewrite length_insert; lia .. |].
    exists out. split; [done |]. intros j. rewrite Hlookup.
    unfold backfill. rewrite !lookup_zip_with.
    destruct (decide (j = k)) as [-> | Hne].
    + rewrite decide_False by lia. rewrite decide_True by lia.
      rewrite list_lookup_insert_eq by lia. by rewrite Hrule, Hv.
    + rewrite list_lookup_insert_ne by done.
      repeat case_decide; try lia; done.
Qed.

Lemma replaceNull_all (decoded : list Value) :
  length decoded ≤ length (rules p) →
  foldl (replaceNull p) (Ret decoded) (seq 0 (length decoded)) =
    Ret (backfill (rules p) decoded).
Proof.
  intros Hlen.
  destruct (replaceNull_loop (length decoded) 0 decoded) as (out & -> & Hlookup);
    [lia | done |].
  f_equal. apply list_eq. intros j. rewrite Hlookup.
  case_decide as Hj; [done |].
  unfold backfill. rewrite lookup_zip_with.
  rewrite (lookup_ge_None_2 decoded j) by lia.
  by destruct (rules p !! j).
Qed.

Lemma backfill_lookup (decoded : list Value) (i : nat) (v : Value) (rule : Rule) :
  decoded !! i = Some v → rules p !! i = Some rule →
  backfill (rules p) decoded !! i =
    Some (if isNil v then NULLReplacement rule else v).
Proof.
  intros Hv Hrule. unfold backfill. by rewrite lookup_zip_with, Hrule, Hv.
Qed.

Lemma DecodeCursor_token (token : string) (dest : Dest Row)
    (decoded : list Value) (err : option error) :
  (After (cursor p) = Some token
   ∨ (After (cursor p) = None ∧ Before (cursor p) = Some token)) →
  Decode (getDecoderFields p) token dest = (decoded, err) →
  length decoded ≤ length (rules p) →
  DecodeCursor p dest =
    Ret (backfill (rules p) decoded,
         if notNil err then Some ErrInvalidCursor else None).
Proof.
  intros Htoken Hdecode Hlen. unfold DecodeCursor, isBackward, isForward.
  destruct Htoken as [Hafter | [Hafter Hbefore]].
  - rewrite Hafter. cbn. rewrite Hdecode. cbn.
    rewrite replaceNull_all by done. reflexivity.
  - rewrite Hafter, Hbefore. cbn. rewrite Hdecode. cbn.
    rewrite replaceNull_all by done. reflexivity.
Qed.

(** C5: the After token is decoded when it is set, whatever Before is;
    else the Before token when it is set; else the tuple is empty.  Every
    failure of the decoder comes back as ErrInvalidCursor.  A position whose
    decoded value is nil holds its rule's NULLReplacement afterwards, which is
    still nil when the rule has none. *)
Theorem C5_decode_cursor (dest : Dest Row) :
  (∀ token decoded err,
     After (cursor p) = Some token →
     Decode (getDecoderFields p) token dest = (decoded, err) →
     length decoded ≤ length (rules p) →
     DecodeCursor p dest =
       Ret (backfill (rules p) decoded,
            if notNil err then Some ErrInvalidCursor else None))
  ∧ (∀ token decoded err,
       After (cursor p) = None → Before (cursor p) = Some token →
       Decode (getDecoderFields p) token dest = (decoded, err) →
       length decoded ≤ length (rules p) →
       DecodeCursor p dest =
         Ret (backfill (rules p) decoded,
              if notNil err then Some ErrInvalidCursor else None))
  ∧ (After (cursor p) = None → Before (cursor p) = None →
     DecodeCursor p dest = Ret ([], None))
  ∧ (∀ decoded i v rule,
       decoded !! i = Some v → rules p !! i = Some rule →
       backfill (rules p) decoded !! i =
         Some (if isNil v then NULLReplacement rule else v))
  ∧ (∀ decoded i v rule,
       decoded !! i = Some v → rules p !! i = Some rule →
       isNil v = true → NULLReplacement rule = VNil →
       backfill (rules p) decoded !! i = Some VNil).
Proof.
  split; [| split; [| split; [| split]]].
  - intros token decoded err Hafter. apply DecodeCursor_token. by left.
  - intros token decoded err Hafter Hbefore. apply DecodeCursor_token. by right.
  - intros Hafter Hbefore. unfold DecodeCursor, isBackward, isForward.
    by rewrite Hafter, Hbefore.
  - apply backfill_lookup.
  - intros decoded i v rule Hv Hrule Hnil Hnone.
    by rewrite (backfill_lookup decoded i v rule), Hnil, Hnone.
Qed.
End Decoding.

Section Paging.
Context {Row : Type} {collab : Collaborators Row}.

Lemma setup_keeps (p p' : Paginator) (db : DB) (dest : Dest Row)
    (err : option error) :
  setup p db dest = Ret (p', err) →
  cursor p' = cursor p ∧ limit p' = limit p ∧ order p' = order p.
Proof.
  unfold setup. destruct (setupLoop p db dest "" (rules p)) as [|[rs e]]; [done |].
  cbn. by intros [= <- <-].
Qed.

Lemma Index_head (elems : list Row) (row : Row) :
  head elems = Some row → Index elems 0 = Ret row.
Proof. by destruct elems; intros [= ->]. Qed.

Lemma Index_last (elems : list Row) (row : Row) :
  last elems = Some row → Index elems (Z.of_nat (length elems) - 1) = Ret row.
Proof.
  intros Hlast. unfold Index.
  assert (elems ≠ []) as Hne by (by intros ->).
  assert (0 < length elems) by (destruct elems; [done | simpl; lia]).
  destruct (Z.ltb_spec (Z.of_nat (length elems) - 1) 0); [lia |].
  replace (Z.to_nat (Z.of_nat (length elems) - 1)) with (pred (length elems)) by lia.
  rewrite last_lookup in Hlast. by rewrite Hlast.
Qed.

Lemma EncodeCursor_tokens (p : Paginator) (elems : list Row) (hasMore : bool)
    (first final : Row) (after before : string) :
  head elems = Some first → last elems = Some final →
  Encode (getEncoderFields p) final = inr after →
  Encode (getEncoderFields p) first = inr before →
  EncodeCursor p elems hasMore =
    Ret ({| After := if isBackward p || hasMore then Some after else None;
            Before := if isForward p || (isBackward p && hasMore)
                      then Some before else None |}, None).
Proof.
  intros Hfirst Hfinal Hafter Hbefore. unfold EncodeCursor.
  rewrite (Index_head _ _ Hfirst), (Index_last _ _ Hfinal). cbn.
  rewrite Hafter, Hbefore.
  by destruct (isBackward p), (isForward p), hasMore.
Qed.

Lemma EncodeCursor_returns (p : Paginator) (elems : list Row) (hasMore : bool) :
  elems ≠ [] → ∃ c err, EncodeCursor p elems hasMore = Ret (c, err).
Proof.
  intros Hne.
  destruct (head elems) as [first|] eqn:Hfirst; [| by destruct elems].
  destruct (last elems) as [final|] eqn:Hfinal;
    [| by apply last_None in Hfinal].
  unfold EncodeCursor.
  rewrite (Index_head _ _ Hfirst), (Index_last _ _ Hfinal). cbn.
  destruct (isBackward p || hasMore), (isForward p || hasMore && isBackward p);
    repeat (destruct (Encode _ _)); cbn; eauto.
Qed.

Lemma EncodeCursor_error (p : Paginator) (elems : list Row) (hasMore : bool)
    (c : Cursor) (err : error) :
  EncodeCursor p elems hasMore = Ret (c, Some err) → c = noCursor.
Proof.
  unfold EncodeCursor.
  generalize (Encode (getEncoderFields p))
    (Index elems (Z.of_nat (length elems) - 1)) (Index elems 0).
  intros encoder [|final] [|first];
    destruct (isBackward p || hasMore), (isForward p || hasMore && isBackward p);
    cbn; intros Hencode;
    repeat (case_match; simplify_eq; cbn in * ); by simplify_eq.
Qed.

Lemma Paginate_reached (p p' : Paginator) (db : DB) (dest : Dest Row)
    (fields : list Value) (result : DB) (fetched : Dest Row) :
  reachesEngine p db dest p' fields result fetched →
  Paginate p db dest =
    let stmt := AppendPagingQuery p' db fields in
    if notNil (Error result) then Ret (p', answered stmt result noCursor None fetched)
    else
      match fetched with
      | DSlice elems =>
          if (0 <? length elems)%nat then
            let hasMore := (limit p' <? Z.of_nat (length elems))%Z in
            let elems := if hasMore then take (length elems - 1) elems else elems in
            let elems := if isBackward p' then reverse elems else elems in
            '(c, err) ← EncodeCursor p' elems hasMore;
            Ret (p', answered stmt result c err (DSlice elems))
          else Ret (p', answered stmt result noCursor None fetched)
      | DStruct _ => Ret (p', answered stmt result noCursor None fetched)
      end.
Proof.
  intros (Hvalid & Hsetup & Hdecode & Hfind). unfold Paginate.
  rewrite Hvalid, Hsetup. cbn. rewrite Hdecode. cbn. rewrite Hfind.
  reflexivity.
Qed.
End Paging.

Section Pages.
Context {Row : Type} {collab : Collaborators Row}.

(** C2: on a page that is not empty, the After token encodes the last row
    and is emitted exactly when the traversal is backward or hasMore holds;
    the Before token encodes the first row and is emitted exactly when the
    traversal is forward, or backward with hasMore.  When the engine returns
    no row, Paginate returns the empty cursor. *)
Theorem C2_cursor_emission (p : Paginator) :
  (∀ elems hasMore first final after before,
     head elems = Some first → last elems = Some final →
     Encode (getEncoderFields p) final = inr after →
     Encode (getEncoderFields p) first = inr before →
     EncodeCursor p elems hasMore =
       Ret ({| After := if isBackward p || hasMore then Some after else None;
               Before := if isForward p || (isBackward p && hasMore)
                         then Some before else None |}, None))
  ∧ (∀ db dest p' fields result,
       reachesEngine p db dest p' fields result (DSlice []) →
       ∃ page,
         Paginate p db dest = Ret (p', page)
         ∧ page_cursor page = noCursor ∧ page_err page = None).
Proof.
  split.
  - intros *. apply EncodeCursor_tokens.
  - intros db dest p' fields result Hreach.
    rewrite (Paginate_reached _ _ _ _ _ _ _ Hreach). cbn.
    destruct (notNil (Error result)); eauto.
Qed.

Lemma trimmed_page (lim : Z) (fetched : list Row) :
  (if (lim <? Z.of_nat (length fetched))%Z
   then take (length fetched - 1) fetched else fetched) =
  (if bool_decide (lim < Z.of_nat (length fetched))%Z
   then removelast fetched else fetched).
Proof.
  destruct (Z.ltb_spec lim (Z.of_nat (length fetched))).
  - rewrite bool_decide_eq_true_2 by done.
    rewrite removelast_firstn_len. f_equal. lia.
  - rewrite bool_decide_eq_false_2 by lia. done.
Qed.

Lemma ltb_bool_decide (a b : Z) : (a <? b)%Z = bool_decide (a < b)%Z.
Proof.
  destruct (Z.ltb_spec a b).
  - by rewrite bool_decide_eq_true_2.
  - by rewrite bool_decide_eq_false_2 by lia.
Qed.

Lemma kept_nonempty (lim : Z) (fetched : list Row) :
  (0 < lim)%Z → fetched ≠ [] →
  (if bool_decide (lim < Z.of_nat (length fetched))%Z
   then removelast fetched else fetched) ≠ [].
Proof.
  intros Hlim Hne. case_bool_decide as Hmore; [| done].
  intros Hnil. apply (f_equal length) in Hnil.
  rewrite removelast_firstn_len, length_take in Hnil. simpl in Hnil. lia.
Qed.
End Pages.

Section Requests.
Context {Row : Type} {collab : Collaborators Row}.

Lemma reachesEngine_limit (p p' : Paginator) (db : DB) (dest : Dest Row)
    (fields : list Value) (result : DB) (fetched : Dest Row) :
  reachesEngine p db dest p' fields result fetched →
  (0 < limit p)%Z ∧ limit p' = limit p ∧ isBackward p' = isBackward p.
Proof.
  intros (Hvalid & Hsetup & _).
  apply validate_None_limit in Hvalid.
  apply setup_keeps in Hsetup as (Hcursor & Hlimit & _).
  unfold isBackward, isForward. by rewrite Hcursor.
Qed.
Lemma Paginate_page (p p' : Paginator) (db : DB) (dest : Dest Row)
    (fields : list Value) (result : DB) (fetched : list Row) :
  reachesEngine p db dest p' fields result (DSlice fetched) →
  Error result = None → fetched ≠ [] →
  let hasMore := bool_decide (limit p < Z.of_nat (length fetched))%Z in
  let kept := if hasMore then removelast fetched else fetched in
  let page := if isBackward p then rev kept else kept in
  Paginate p db dest =
    '(c, err) ← EncodeCursor p' page hasMore;
    Ret (p', answered (AppendPagingQuery p' db fields) result c err (DSlice page)).
Proof.
  intros Hreach Hok Hne.
  destruct (reachesEngine_limit _ _ _ _ _ _ _ Hreach) as (_ & Hlimit & Hback).
  assert ((0 <? length fetched)%nat = true) as Hlen by (by destruct fetched).
  rewrite (Paginate_reached _ _ _ _ _ _ _ Hreach), Hok. cbv zeta. cbn [notNil].
  rewrite Hlen, Hlimit, Hback, trimmed_page.
  by rewrite ltb_bool_decide.
Qed.

(** C3: of the rows the engine returns, the last one is dropped and
    hasMore is true when there are more rows than the limit; otherwise nothing
    is dropped and hasMore is false; a backward traversal then reverses the
    rows that are kept.  The engine returns at most limit + 1 rows, so the page
    is the first limit rows and the sentinel row is not in it.  [GetCursor]
    trims and reverses the same way. *)
Theorem C3_trim_and_reverse (p p' : Paginator) (db : DB) (dest : Dest Row)
    (fields : list Value) (result : DB) (fetched : list Row) :
  reachesEngine p db dest p' fields result (DSlice fetched) →
  Error result = None →
  let hasMore := bool_decide (limit p < Z.of_nat (length fetched))%Z in
  let kept := if hasMore then removelast fetched else fetched in
  let page := if isBackward p then rev kept else kept in
  (∃ c err,
     (fetched ≠ [] → EncodeCursor p' page hasMore = Ret (c, err))
     ∧ Paginate p db dest =
         Ret (p', answered (AppendPagingQuery p' db fields) result c err (DSlice page))
     ∧ GetCursor p' (DSlice fetched) = Ret (DSlice page, c, err))
  ∧ ((Z.of_nat (length fetched) ≤ limit p + 1)%Z →
     kept = take (Z.to_nat (limit p)) fetched).
Proof.
  intros Hreach Hok hasMore kept page.
  destruct (reachesEngine_limit _ _ _ _ _ _ _ Hreach) as (Hpos & Hlimit & Hback).
  split.
  - destruct (decide (fetched = [])) as [-> | Hne].
    + exists noCursor, None. split; [done |].
      rewrite (Paginate_reached _ _ _ _ _ _ _ Hreach), Hok.
      subst page kept hasMore. cbn.
      rewrite bool_decide_eq_false_2 by lia. by destruct (isBackward p).
    + assert (page ≠ []) as Hpage.
      { subst page. pose proof (kept_nonempty (limit p) fetched Hpos Hne) as Hkept.
        fold hasMore kept in Hkept.
        destruct (isBackward p); [| done].
        intros Hnil. apply (f_equal (@rev Row)) in Hnil.
        by rewrite rev_involutive in Hnil. }
      destruct (EncodeCursor_returns p' page hasMore Hpage) as (c & err & Hencode).
      exists c, err. split; [done | split].
      * rewrite (Paginate_page _ _ _ _ _ _ _ Hreach Hok Hne).
        fold hasMore kept page. by rewrite Hencode.
      * unfold GetCursor.
        assert ((0 <? length fetched)%nat = true) as -> by (by destruct fetched).
        cbv zeta. rewrite Hlimit, Hback, trimmed_page, ltb_bool_decide.
        fold hasMore kept. unfold reverse. fold page. by rewrite Hencode.
  - intros Hmost. subst kept hasMore. case_bool_decide as Hmore.
    + rewrite removelast_firstn_len. f_equal. lia.
    + rewrite take_ge; [done | lia].
Qed.

(** C9, as the code has it: an error of validation, setup or cursor
    decoding aborts the request before any statement reaches the engine and is
    the error that Paginate returns, with no handle and no cursor.  When the
    engine fails, Paginate stops and returns the handle that carries the
    failure in its Error field, with no cursor and a nil error of its own.
    An error of the cursor encoder is the error that Paginate returns, with
    no cursor. *)
Theorem C9_errors_abort (p : Paginator) (db : DB) (dest : Dest Row) :
  (∀ err,
     validate p db dest = Some err →
     Paginate p db dest = Ret (p, aborted dest err))
  ∧ (∀ p' err,
       validate p db dest = None → setup p db dest = Ret (p', Some err) →
       Paginate p db dest = Ret (p', aborted dest err))
  ∧ (∀ p' fields err,
       validate p db dest = None → setup p db dest = Ret (p', None) →
       DecodeCursor p' dest = Ret (fields, Some err) →
       Paginate p db dest = Ret (p', aborted dest err))
  ∧ (∀ p' fields result fetched,
       reachesEngine p db dest p' fields result fetched →
       Error result ≠ None →
       Paginate p db dest =
         Ret (p', answered (AppendPagingQuery p' db fields) result noCursor None
                    fetched))
  ∧ (∀ p' fields result fetched c err,
       reachesEngine p db dest p' fields result (DSlice fetched) →
       Error result = None → fetched ≠ [] →
       let hasMore := bool_decide (limit p < Z.of_nat (length fetched))%Z in
       let kept := if hasMore then removelast fetched else fetched in
       let page := if isBackward p then rev kept else kept in
       EncodeCursor p' page hasMore = Ret (c, Some err) →
       c = noCursor
       ∧ Paginate p db dest =
           Ret (p', answered (AppendPagingQuery p' db fields) result noCursor
                      (Some err) (DSlice page))).
Proof.
  split; [| split; [| split; [| split]]].
  - intros err Hvalid. unfold Paginate. by rewrite Hvalid.
  - intros p' err Hvalid Hsetup. unfold Paginate. by rewrite Hvalid, Hsetup.
  - intros p' fields err Hvalid Hsetup Hdecode. unfold Paginate.
    rewrite Hvalid, Hsetup. cbn. by rewrite Hdecode.
  - intros p' fields result fetched Hreach Herr.
    rewrite (Paginate_reached _ _ _ _ _ _ _ Hreach). cbn.
    by destruct (Error result).
  - intros p' fields result fetched c err Hreach Hok Hne hasMore kept page Hencode.
    assert (c = noCursor) as ->.
    { apply (EncodeCursor_error p' page hasMore c err Hencode). }
    split; [done |].
    rewrite (Paginate_page _ _ _ _ _ _ _ Hreach Hok Hne).
    fold hasMore kept page. by rewrite Hencode.
Qed.
End Requests.

Section Resolution.
Context {Row : Type} {collab : Collaborators Row}.
Variables (p : Paginator) (db : DB) (dest : Dest Row) (schema : Schema).
Hypothesis parsed : ParseSchema db dest = inr schema.

Lemma withOrder_same (rule : Rule) : withOrder rule (Order rule) = rule.
Proof. by destruct rule. Qed.

Lemma setupRule_resolved (sqlTable : string) (rule rule' : Rule) :
  sqlTable = "" ∨ sqlTable = Table schema →
  resolveRule schema (order p) rule = Some rule' →
  ∃ sqlTable',
    (sqlTable' = "" ∨ sqlTable' = Table schema)
    ∧ setupRule p db dest sqlTable rule = Ret (inr (sqlTable', rule')).
Proof.
  intros Htable. unfold resolveRule, setupRule, parseSQLKey. rewrite parsed.
  destruct rule as [key o repr ty replacement custom]. cbn.
  destruct (repr =? "")%string eqn:Hrepr.
  - destruct (LookUpField schema key) as [field|]; [| done].
    cbn. intros [= <-]. exists (Table schema). split; [by right |].
    assert ((if (sqlTable =? "")%string then inr (Table schema) else inr sqlTable)
            = (inr (Table schema) : error + string)) as ->.
    { destruct Htable as [-> | ->]; [done |]. by destruct (Table schema =? "")%string. }
    cbn. unfold nullWrap, castWrap, withSQLRepr, withOrder.
    by destruct (isNilInterface replacement), ty, (o =? "")%string eqn:Horder;
      cbn; rewrite ?Horder.
  - cbn. intros [= <-]. exists sqlTable. split; [done |].
    unfold nullWrap, castWrap, withSQLRepr, withOrder.
    by destruct (isNilInterface replacement), ty, (o =? "")%string eqn:Horder;
      cbn; rewrite ?Horder.
Qed.

Lemma setupLoop_resolved (sqlTable : string) (rs resolved : list Rule) :
  sqlTable = "" ∨ sqlTable = Table schema →
  Forall2 (fun rule rule' => resolveRule schema (order p) rule = Some rule')
    rs resolved →
  setupLoop p db dest sqlTable rs = Ret (resolved, None).
Proof.
  intros Htable Hall. revert sqlTable Htable.
  induction Hall as [|rule rule' rs resolved Hrule _ IH]; intros sqlTable Htable.
  - done.
  - destruct (setupRule_resolved sqlTable rule rule' Htable Hrule)
      as (sqlTable' & Htable' & Hstep).
    cbn [setupLoop]. rewrite Hstep. cbn. by rewrite (IH sqlTable' Htable').
Qed.

Lemma resolveRule_total (rs : list Rule) :
  (∀ rule, rule ∈ rs → SQLRepr rule = "" →
           is_Some (LookUpField schema (Key rule))) →
  ∃ resolved,
    Forall2 (fun rule rule' => resolveRule schema (order p) rule = Some rule')
      rs resolved.
Proof.
  induction rs as [|rule rs IH]; intros Hkeys.
  - exists []. constructor.
  - destruct IH as (resolved & Hall).
    { intros r Hr. apply Hkeys. by right. }
    assert (is_Some (resolveRule schema (order p) rule)) as [rule' Hrule].
    { unfold resolveRule. destruct (String.eqb_spec (SQLRepr rule) "") as [Hrepr|]; [| by eexists].
      destruct (Hkeys rule ltac:(by left) Hrepr) as [field ->]. by eexists. }
    exists (rule' :: resolved). by constructor.
Qed.
(** C7: a rule without a supplied expression is resolved to the column of
    its key, then wrapped in COALESCE with the NULL replacement, then cast,
    the cast outermost: with both a replacement and a type the expression is
    CAST( COALESCE(table.column, 'replacement') AS type ).  A rule whose
    order is unset takes the paginator's. *)
Theorem C7_resolution_order :
  (∀ rule, rule ∈ rules p → SQLRepr rule = "" →
           is_Some (LookUpField schema (Key rule))) →
  ∃ resolved,
    setup p db dest = Ret (withRules p resolved, None)
    ∧ Forall2 (fun rule rule' => resolveRule schema (order p) rule = Some rule')
        (rules p) resolved
    ∧ ∀ i rule,
        rules p !! i = Some rule →
        ∃ rule',
          resolved !! i = Some rule'
          ∧ Order rule' = (if (Order rule =? "")%string then order p else Order rule)
          ∧ (SQLRepr rule = "" →
             ∃ field,
               LookUpField schema (Key rule) = Some field
               ∧ let column := Table schema +:+ "." +:+ DBName field in
                 SQLRepr rule' =
                   castWrap (SQLType rule) (nullWrap (NULLReplacement rule) column)
                 ∧ ∀ ty,
                     SQLType rule = Some ty → NULLReplacement rule ≠ VNil →
                     SQLRepr rule' =
                       "CAST( "
                         +:+ ("COALESCE(" +:+ column +:+ ", '"
                                +:+ fmt_v (NULLReplacement rule) +:+ "')")
                         +:+ " AS " +:+ ty +:+ " )").
Proof.
  intros Hkeys. destruct (resolveRule_total (rules p) Hkeys) as (resolved & Hall).
  exists resolved. split; [| split; [done |]].
  - unfold setup. by rewrite (setupLoop_resolved "" (rules p) resolved (or_introl eq_refl) Hall).
  - intros i rule Hi.
    destruct (Forall2_lookup_l _ _ _ _ _ Hall Hi) as (rule' & Hi' & Hrule).
    exists rule'. split; [done |]. revert Hrule. unfold resolveRule.
    destruct (String.eqb_spec (SQLRepr rule) "") as [Hrepr | Hrepr].
    + destruct (LookUpField schema (Key rule)) as [field|]; [| done].
      cbn. intros [= <-]. split; [done |]. intros _. exists field.
      split; [done |]. cbn. split; [done |].
      intros ty -> Hreplacement. unfold castWrap, nullWrap.
      by destruct (NULLReplacement rule).
    + cbn. intros [= <-]. split; [done |]. done.
Qed.
End Resolution.

Section Reuse.
Context {Row : Type} {collab : Collaborators Row}.
Variables (p : Paginator) (db : DB) (dest : Dest Row) (schema : Schema).
Hypothesis parsed : ParseSchema db dest = inr schema.

Lemma column_not_empty (table column : string) :
  (table +:+ "." +:+ column =? "")%string = false.
Proof. by destruct table. Qed.

Lemma resolveRule_again (rule rule' : Rule) :
  NULLReplacement rule = VNil → SQLType rule = None →
  resolveRule schema (order p) rule = Some rule' →
  resolveRule schema (order p) rule' = Some rule'.
Proof.
  destruct rule as [key o repr ty replacement custom]. cbn. intros -> ->.
  unfold resolveRule. cbn.
  destruct (repr =? "")%string eqn:Hrepr.
  - destruct (LookUpField schema key) as [field|]; [| done].
    cbn. intros [= <-]. cbn. rewrite column_not_empty. cbn.
    unfold withOrder, withSQLRepr. cbn.
    by destruct (o =? "")%string eqn:Ho; rewrite ?Ho; destruct (order p =? "")%string.
  - cbn. intros [= <-]. cbn. rewrite Hrepr. cbn.
    unfold withOrder, withSQLRepr. cbn.
    by destruct (o =? "")%string eqn:Ho; rewrite ?Ho; destruct (order p =? "")%string.
Qed.

(** X17: where no rule has a NULL replacement or a type, a second run of
    [setup] changes nothing. *)
Lemma setup_again_plain (p' : Paginator) :
  Forall (fun rule => NULLReplacement rule = VNil ∧ SQLType rule = None) (rules p) →
  (∀ rule, rule ∈ rules p → SQLRepr rule = "" →
           is_Some (LookUpField schema (Key rule))) →
  setup p db dest = Ret (p', None) →
  setup p' db dest = Ret (p', None).
Proof.
  intros Hplain Hkeys.
  destruct (resolveRule_total p schema (rules p) Hkeys) as (resolved & Hall).
  unfold setup at 1.
  rewrite (setupLoop_resolved p db dest schema parsed "" _ _ (or_introl eq_refl) Hall).
  cbn. intros [= <-]. unfold setup. cbn.
  rewrite (setupLoop_resolved (withRules p resolved) db dest schema parsed ""
             resolved resolved (or_introl eq_refl)); [done |].
  cbn. clear Hkeys. induction Hall as [|rule rule' rs rs' Hrule _ IH].
  - constructor.
  - inversion Hplain as [|? ? [Hnull Htype] Hrest]; subst.
    constructor; [by apply (resolveRule_again rule) | by apply IH].
Qed.
End Reuse.

Lemma C7_resolution_order_witness :
  ∃ resolved,
    setup (collab := Demo.up) Demo.byname Demo.db Demo.dest =
      Ret (withRules Demo.byname resolved, None)
    ∧ SQLRepr <$> resolved = ["CAST( COALESCE(users.name, 'zzz') AS TEXT )"]
    ∧ Order <$> resolved = [DESC].
Proof.
  destruct (C7_resolution_order (collab := Demo.up) Demo.byname Demo.db Demo.dest
              Demo.schema eq_refl) as (resolved & Hsetup & Hall & _).
  { intros rule _ _. by eexists. }
  exists resolved. split; [done |].
  inversion Hall as [|rule rule' rs rs' Hrule Hrest]; subst.
  inversion Hrest; subst.
  vm_compute in Hrule. injection Hrule as <-. split; reflexivity.
Defined.

(** C6 does not hold of the code: on a rule with a NULL replacement and a
    type, a second run of [setup] wraps the expression that the first run
    resolved once more. *)
Lemma C6_setup_wraps_again :
  ∃ once twice,
    setup (collab := Demo.up) Demo.byname Demo.db Demo.dest = Ret (once, None)
    ∧ setup (collab := Demo.up) once Demo.db Demo.dest = Ret (twice, None)
    ∧ SQLRepr <$> rules once = ["CAST( COALESCE(users.name, 'zzz') AS TEXT )"]
    ∧ SQLRepr <$> rules twice =
        ["CAST( COALESCE(CAST( COALESCE(users.name, 'zzz') AS TEXT ), 'zzz') AS TEXT )"].
Proof.
  eexists _, _. split; [vm_compute; reflexivity |].
  split; [vm_compute; reflexivity |]. split; reflexivity.
Qed.

(** C10: on the same configuration, the methods that [SqlPaginator]
    declares return what the methods of the [Paginator] return. *)
Theorem C10_implementations_agree {Row : Type} {collab : Collaborators Row}
    (p : Paginator) (fields : list Value) (dest : Dest Row) (elems : list Row)
    (hasMore : bool) :
  let sql := {| embedded := p |} in
  Sql.BuildCursorSQLQuery sql = BuildCursorSQLQuery p
  ∧ Sql.BuildOrderSQL sql = BuildOrderSQL p
  ∧ Sql.BuildCursorSQLQueryArgs fields = BuildCursorSQLQueryArgs fields
  ∧ Sql.DecodeCursor sql dest = DecodeCursor p dest
  ∧ Sql.EncodeCursor sql elems hasMore = EncodeCursor p elems hasMore.
Proof. repeat split. Qed.

Lemma C2_cursor_emission_witness :
  EncodeCursor (collab := Demo.up) Demo.abc ["r1"; "r2"] true =
    Ret ({| After := Some "cursor:r2"; Before := Some "cursor:r1" |}, None)
  ∧ EncodeCursor (collab := Demo.up) Demo.back ["r1"; "r2"] false =
      Ret ({| After := Some "cursor:r2"; Before := None |}, None)
  ∧ ∃ page,
      Paginate (collab := Demo.empty) Demo.abc Demo.db Demo.dest = Ret (Demo.abc, page)
      ∧ page_cursor page = noCursor ∧ page_err page = None.
Proof.
  split; [| split].
  - apply (proj1 (C2_cursor_emission (collab := Demo.up) Demo.abc)
             ["r1"; "r2"] true "r1" "r2" "cursor:r2" "cursor:r1"); reflexivity.
  - apply (proj1 (C2_cursor_emission (collab := Demo.up) Demo.back)
             ["r1"; "r2"] false "r1" "r2" "cursor:r2" "cursor:r1"); reflexivity.
  - apply (proj2 (C2_cursor_emission (collab := Demo.empty) Demo.abc)
             Demo.db Demo.dest Demo.abc [VString "t"; VString "t"; VString "t"]
             (AppendPagingQuery (collab := Demo.empty) Demo.abc Demo.db
                [VString "t"; VString "t"; VString "t"])).
    repeat split; reflexivity.
Defined.

Lemma C3_trim_and_reverse_witness :
  (∃ c err,
     Paginate (collab := Demo.up) Demo.abc Demo.db Demo.dest =
       Ret (Demo.abc,
            answered
              (AppendPagingQuery (collab := Demo.up) Demo.abc Demo.db
                 [VString "t"; VString "t"; VString "t"])
              (AppendPagingQuery (collab := Demo.up) Demo.abc Demo.db
                 [VString "t"; VString "t"; VString "t"])
              c err (DSlice ["r1"; "r2"])))
  ∧ (∃ c err,
       GetCursor (collab := Demo.up) Demo.back (DSlice ["r1"; "r2"; "r3"]) =
         Ret (DSlice ["r2"; "r1"], c, err)).
Proof.
  split.
  - destruct (C3_trim_and_reverse (collab := Demo.up) Demo.abc Demo.abc Demo.db
                Demo.dest [VString "t"; VString "t"; VString "t"]
                (AppendPagingQuery (collab := Demo.up) Demo.abc Demo.db
                   [VString "t"; VString "t"; VString "t"])
                ["r1"; "r2"; "r3"])
      as ((c & err & _ & Hpage & _) & _); [repeat split; reflexivity | done |].
    exists c, err. exact Hpage.
  - destruct (C3_trim_and_reverse (collab := Demo.up) Demo.back Demo.back Demo.db
                Demo.dest [VString "t"; VString "t"; VString "t"]
                (AppendPagingQuery (collab := Demo.up) Demo.back Demo.db
                   [VString "t"; VString "t"; VString "t"])
                ["r1"; "r2"; "r3"])
      as ((c & err & _ & _ & Hpage) & _); [repeat split; reflexivity | done |].
    exists c, err. exact Hpage.
Defined.

Lemma C5_decode_cursor_witness :
  DecodeCursor (collab := Demo.up) Demo.byname Demo.dest = Ret ([VString "zzz"], None)
  ∧ DecodeCursor (collab := Demo.up) Demo.back Demo.dest =
      Ret ([VString "t"; VString "t"; VString "t"], None)
  ∧ DecodeCursor (collab := Demo.up) Demo.badtoken Demo.dest =
      Ret ([], Some ErrInvalidCursor)
  ∧ DecodeCursor (collab := Demo.up) Demo.nokey Demo.dest = Ret ([], None).
Proof.
  pose proof (C5_decode_cursor (collab := Demo.up)) as C5.
  split; [| split; [| split]].
  - apply (proj1 (C5 Demo.byname Demo.dest) "null" [VNil] None);
      [reflexivity | reflexivity | simpl; lia].
  - apply (proj1 (proj2 (C5 Demo.back Demo.dest)) "t"
             [VString "t"; VString "t"; VString "t"] None);
      [reflexivity | reflexivity | reflexivity | simpl; lia].
  - apply (proj1 (C5 Demo.badtoken Demo.dest) "" [] (Some (ErrOther "malformed")));
      [reflexivity | reflexivity | simpl; lia].
  - apply (proj1 (proj2 (proj2 (C5 Demo.nokey Demo.dest)))); reflexivity.
Defined.

(** C9 does not hold as stated: when the engine is down, Paginate returns
    the handle that carries the failure, and a nil error. *)
Lemma C9_engine_failure_leaves_err_nil :
  ∃ p' page result,
    Paginate (collab := Demo.down) Demo.abc Demo.db Demo.dest = Ret (p', page)
    ∧ page_result page = Some result
    ∧ Error result = Some (ErrOther "connection refused")
    ∧ page_err page = None.
Proof.
  eexists _, _, _. split; [vm_compute; reflexivity |]. repeat split.
Qed.

Lemma C9_errors_abort_witness :
  Paginate (collab := Demo.up) Demo.norules Demo.db Demo.dest =
    Ret (Demo.norules, aborted Demo.dest ErrNoRule)
  ∧ Paginate (collab := Demo.noschema) Demo.byname Demo.db Demo.dest =
      Ret (Demo.byname, aborted Demo.dest (ErrOther "unknown schema"))
  ∧ Paginate (collab := Demo.up) Demo.badtoken Demo.db Demo.dest =
      Ret (Demo.badtoken, aborted Demo.dest ErrInvalidCursor)
  ∧ (∃ stmt result,
       Error result = Some (ErrOther "connection refused")
       ∧ Paginate (collab := Demo.down) Demo.abc Demo.db Demo.dest =
           Ret (Demo.abc, answered stmt result noCursor None Demo.dest))
  ∧ (∃ stmt result,
       Paginate (collab := Demo.unnamed) Demo.abc Demo.db Demo.dest =
         Ret (Demo.abc,
              answered stmt result noCursor (Some (ErrOther "unencodable"))
                (DSlice [""]))).
Proof.
  split; [| split; [| split; [| split]]].
  - apply (proj1 (C9_errors_abort (collab := Demo.up) Demo.norules Demo.db Demo.dest)).
    reflexivity.
  - apply (proj1 (proj2 (C9_errors_abort (collab := Demo.noschema) Demo.byname
                           Demo.db Demo.dest))); reflexivity.
  - apply (proj1 (proj2 (proj2 (C9_errors_abort (collab := Demo.up) Demo.badtoken
                                  Demo.db Demo.dest))) Demo.badtoken []);
      reflexivity.
  - eexists _, _. split; [| apply (proj1 (proj2 (proj2 (proj2
      (C9_errors_abort (collab := Demo.down) Demo.abc Demo.db Demo.dest))))
      Demo.abc [VString "t"; VString "t"; VString "t"]);
        [repeat split; reflexivity | done]].
    reflexivity.
  - eexists _, _.
    apply (proj2 (proj2 (proj2 (proj2
      (C9_errors_abort (collab := Demo.unnamed) Demo.abc Demo.db Demo.dest))))
      Demo.abc [VString "t"; VString "t"; VString "t"] _ [""] noCursor
      (ErrOther "unencodable"));
      [repeat split; reflexivity | done | done | reflexivity].
Defined.

(** ** Placeholders and arguments *)

Lemma placeholders_app (a b : string) :
  placeholders (a +:+ b) = placeholders a + placeholders b.
Proof.
  induction a as [|c a IH]; [done |].
  rewrite append_cons. cbn [placeholders]. rewrite IH. lia.
Qed.

Lemma placeholders_concat (sep : string) (l : list string) :
  placeholders sep = 0 →
  placeholders (String.concat sep l) = list_sum (map placeholders l).
Proof.
  intros Hsep. induction l as [|s l IH]; [done |].
  destruct l as [|s' l]; [cbn; lia |].
  change (String.concat sep (s :: s' :: l))
    with (s +:+ sep +:+ String.concat sep (s' :: l)).
  rewrite !placeholders_app, Hsep, IH. cbn [map list_sum fold_right]. lia.
Qed.

Lemma placeholders_equalities (rs : list Rule) :
  Forall (fun rule => placeholders (SQLRepr rule) = 0) rs →
  placeholders (equalities rs) = length rs.
Proof.
  induction 1 as [|rule rs Hrule _ IH]; [done |].
  cbn [equalities foldr length]. fold (equalities rs).
  rewrite !placeholders_app, Hrule, IH. cbn. lia.
Qed.

Lemma placeholders_comparator (p : Paginator) (rule : Rule) :
  placeholders (comparator p rule) = 0.
Proof. unfold comparator. by destruct (_ || _). Qed.

Lemma triangle (n : nat) : 2 * list_sum (map S (seq 0 n)) = n * (n + 1).
Proof.
  induction n as [|n IH]; [done |].
  rewrite seq_S, map_app, list_sum_app. cbn [map list_sum fold_right]. nia.
Qed.

Section Placeholders.
Variable p : Paginator.
Hypothesis plain : Forall (fun rule => placeholders (SQLRepr rule) = 0) (rules p).

Lemma placeholders_seekClause (i : nat) (rule : Rule) :
  rules p !! i = Some rule → placeholders (seekClause p i rule) = S i.
Proof.
  intros Hi. unfold seekClause.
  rewrite !placeholders_app, placeholders_equalities, placeholders_comparator.
  - rewrite (proj1 (Forall_lookup _ _) plain i rule Hi).
    rewrite length_take_le by (apply lookup_lt_Some in Hi; lia). cbn. lia.
  - by apply Forall_take.
Qed.

(** X1: when no expression of a rule contains a question mark and there
    are as many values as rules, the predicate has exactly as many
    placeholders as [BuildCursorSQLQueryArgs] returns arguments:
    n (n + 1) / 2 of them for n rules. *)
Theorem placeholders_match_args (fields : list Value) :
  length fields = length (rules p) →
  placeholders (BuildCursorSQLQuery p) = length (BuildCursorSQLQueryArgs fields)
  ∧ 2 * length (BuildCursorSQLQueryArgs fields)
    = length (rules p) * (length (rules p) + 1).
Proof.
  intros Hlen.
  assert (length (BuildCursorSQLQueryArgs fields)
          = list_sum (map S (seq 0 (length (rules p))))) as Hargs.
  { rewrite BuildCursorSQLQueryArgs_clauses, length_concat, map_map, Hlen.
    f_equal. apply map_ext_in. intros i Hi. apply in_seq in Hi.
    unfold clauseArgs. rewrite length_take_le; lia. }
  split; [| rewrite Hargs; apply triangle].
  rewrite Hargs, BuildCursorSQLQuery_clauses, placeholders_concat by done.
  f_equal. apply list_eq. intros i.
  change (map placeholders ?l) with (placeholders <$> l).
  change (map S ?l) with (S <$> l).
  rewrite !list_lookup_fmap, list_lookup_imap.
  destruct (rules p !! i) as [rule|] eqn:Hi; cbn.
  - rewrite lookup_seq_lt by (by apply lookup_lt_Some in Hi). cbn.
    by rewrite placeholders_seekClause.
  - apply lookup_ge_None in Hi.
    by rewrite (lookup_ge_None_2 (seq 0 _)) by (by rewrite length_seq).
Qed.
End Placeholders.

Lemma placeholders_match_args_witness :
  placeholders (BuildCursorSQLQuery Demo.abc) = 6
  ∧ length (BuildCursorSQLQueryArgs [VInt 1; VInt 2; VInt 3]) = 6.
Proof.
  destruct (placeholders_match_args Demo.abc ltac:(repeat constructor)
              [VInt 1; VInt 2; VInt 3] eq_refl) as [Hquery Hargs].
  rewrite Hquery. split; reflexivity.
Defined.

(** ** The seek direction and the sort direction *)

Section Directions.
Context {Row : Type} {collab : Collaborators Row}.

(** X2: with a cursor set and [flip] exchanging ASC and DESC, the clause of
    a rule compares with ">" exactly when the ORDER BY entry of that rule is
    ascending, and with "<" exactly when it is descending: the predicate
    seeks in the direction the rows are sorted in. *)
Theorem seek_follows_sort (p : Paginator) (i : nat) (rule : Rule) :
  flip ASC = DESC → flip DESC = ASC →
  isForward p = true ∨ isBackward p = true →
  rules p !! i = Some rule →
  Order rule = ASC ∨ Order rule = DESC →
  BuildCursorSQLQuery p = String.concat " OR " (imap (seekClause p) (rules p))
  ∧ BuildOrderSQL p = String.concat ", " (orderEntry <$> buildOrder p)
  ∧ ((seekClause p i rule
        = equalities (take i (rules p)) +:+ SQLRepr rule +:+ " " +:+ ">" +:+ " ?"
      ∧ (orderEntry <$> buildOrder p) !! i = Some (SQLRepr rule +:+ " " +:+ ASC))
     ∨ (seekClause p i rule
          = equalities (take i (rules p)) +:+ SQLRepr rule +:+ " " +:+ "<" +:+ " ?"
        ∧ (orderEntry <$> buildOrder p) !! i = Some (SQLRepr rule +:+ " " +:+ DESC))).
Proof.
  intros Hasc Hdesc Hcursor Hi Horder.
  split; [apply BuildCursorSQLQuery_clauses | split; [apply BuildOrderSQL_entries |]].
  rewrite list_lookup_fmap, (buildOrder_lookup p i rule Hi).
  unfold seekClause, comparator, orderEntry. cbn.
  assert (isBackward p = true → isForward p = false) as Hexcl.
  { unfold isBackward. by destruct (isForward p). }
  destruct Hcursor as [Hf | Hb].
  - assert (isBackward p = false) as Hb.
    { unfold isBackward. by rewrite Hf. }
    rewrite Hf, Hb. destruct Horder as [-> | ->]; [by left | by right].
  - rewrite (Hexcl Hb), Hb. destruct Horder as [-> | ->].
    + right. by rewrite Hasc.
    + left. by rewrite Hdesc.
Qed.
End Directions.

Lemma seek_follows_sort_witness :
  seekClause Cases.newest 1 (Demo.rule "id" DESC) = "created_at = ? AND id > ?"
  ∧ BuildOrderSQL (collab := Demo.up) Cases.newest = "created_at ASC, id ASC".
Proof.
  destruct (seek_follows_sort (collab := Demo.up) Cases.newest 1 (Demo.rule "id" DESC))
    as (_ & Horder & [[Hclause _] | [Hclause _]]);
    [reflexivity | reflexivity | by right | reflexivity | by right | |].
  - split; [exact Hclause | rewrite Horder; reflexivity].
  - split; [reflexivity | rewrite Horder; reflexivity].
Defined.

(** ** What [setup] keeps, and where it stops *)

Section Setup.
Context {Row : Type} {collab : Collaborators Row}.
Variables (p : Paginator) (db : DB) (dest : Dest Row).

Lemma setupRule_identity (sqlTable sqlTable' : string) (rule rule' : Rule) :
  setupRule p db dest sqlTable rule = Ret (inr (sqlTable', rule')) →
  sameIdentity rule rule'.
Proof.
  unfold setupRule, sameIdentity. destruct rule as [key o repr ty replacement custom].
  cbn. destruct (repr =? "")%string.
  - destruct (if (sqlTable =? "")%string then _ else _) as [err | table]; [done |].
    destruct (parseSQLKey db dest key) as [|sqlKey]; [done |]. cbn.
    intros [= _ <-].
    by destruct (isNilInterface replacement), ty, (o =? "")%string eqn:Ho;
      cbn; rewrite ?Ho.
  - cbn. intros [= _ <-].
    by destruct (isNilInterface replacement), ty, (o =? "")%string eqn:Ho;
      cbn; rewrite ?Ho.
Qed.

Lemma setupLoop_identity (sqlTable : string) (rs rs' : list Rule)
    (err : option error) :
  setupLoop p db dest sqlTable rs = Ret (rs', err) → Forall2 sameIdentity rs rs'.
Proof.
  revert sqlTable rs' err. induction rs as [|rule rs IH]; intros sqlTable rs' err.
  - cbn. intros [= <- _]. constructor.
  - cbn [setupLoop].
    destruct (setupRule p db dest sqlTable rule) as [|[e | [table rule']]] eqn:Hrule;
      [done | |]; cbn.
    + intros [= <- _]. apply Forall2_same_length_lookup_2; [done |].
      intros i x y Hx Hy. by simplify_eq.
    + destruct (setupLoop p db dest table rs) as [|[rest e]] eqn:Hrest; [done |].
      cbn. intros [= <- _]. constructor; [| by eapply IH].
      by eapply setupRule_identity.
Qed.

(** X3: whenever [setup] returns, with or without an error, it has kept
    the cursor, the limit, the order and the number of rules, and the key,
    type, NULL replacement and custom type of every rule; so the fields handed
    to the cursor codec are the same before and after. *)
Theorem setup_keeps_identity (p' : Paginator) (err : option error) :
  setup p db dest = Ret (p', err) →
  cursor p' = cursor p ∧ limit p' = limit p ∧ order p' = order p
  ∧ Forall2 sameIdentity (rules p) (rules p')
  ∧ getEncoderFields p' = getEncoderFields p
  ∧ getDecoderFields p' = getDecoderFields p.
Proof.
  intros Hsetup.
  destruct (setup_keeps _ _ _ _ _ Hsetup) as (Hcursor & Hlimit & Horder).
  assert (Forall2 sameIdentity (rules p) (rules p')) as Hsame.
  { revert Hsetup. unfold setup.
    destruct (setupLoop p db dest "" (rules p)) as [|[rs e]] eqn:Hloop; [done |].
    cbn. intros [= <- _]. by eapply setupLoop_identity. }
  repeat split; try done.
  - unfold getEncoderFields. induction Hsame as [|r r' rs rs' (Hk & _ & _ & Hc) _ IH];
      [done |]. cbn. by rewrite IH, Hk, Hc.
  - unfold getDecoderFields. induction Hsame as [|r r' rs rs' (Hk & _ & _ & Hc) _ IH];
      [done |]. cbn. by rewrite IH, Hk, Hc.
Qed.

Lemma setupRule_supplied (sqlTable : string) (rule : Rule) :
  SQLRepr rule ≠ "" →
  setupRule p db dest sqlTable rule = Ret (inr (sqlTable, wrapRule p rule)).
Proof.
  intros Hrepr. unfold setupRule, wrapRule, nullWrap, castWrap.
  destruct rule as [key o repr ty replacement custom]. cbn in *.
  destruct (String.eqb_spec repr "") as [-> |]; [done |]. cbn.
  by destruct (isNilInterface replacement), ty, (o =? "")%string eqn:Ho;
    cbn; rewrite ?Ho.
Qed.

Lemma setupLoop_supplied_prefix (sqlTable : string) (pre rs : list Rule) :
  Forall (fun rule => SQLRepr rule ≠ "") pre →
  setupLoop p db dest sqlTable (pre ++ rs) =
    '(rs', err) ← setupLoop p db dest sqlTable rs;
    Ret ((wrapRule p <$> pre) ++ rs', err).
Proof.
  induction 1 as [|rule pre Hrule _ IH].
  - cbn. by destruct (setupLoop p db dest sqlTable rs) as [|[rs' err]].
  - cbn [app setupLoop]. rewrite (setupRule_supplied _ _ Hrule). cbn.
    rewrite IH. by destruct (setupLoop p db dest sqlTable rs) as [|[rs' err]].
Qed.

(** X4: when every rule comes with its expression, [setup] never asks for
    the schema: whatever [util.ParseSchema] would answer, it returns no error
    and leaves each expression wrapped in COALESCE and CAST as the rule asks. *)
Theorem setup_supplied :
  Forall (fun rule => SQLRepr rule ≠ "") (rules p) →
  setup p db dest = Ret (withRules p (wrapRule p <$> rules p), None).
Proof.
  intros Hall. unfold setup.
  rewrite <- (app_nil_r (rules p)) at 1.
  rewrite (setupLoop_supplied_prefix _ _ _ Hall). cbn. by rewrite app_nil_r.
Qed.

(** X5: when the schema cannot be parsed, [setup] returns the parser's
    error at the first rule without an expression; the rules before it have
    already been rewritten in place, that rule and the rules after it are
    untouched. *)
Theorem setup_schema_error (err : error) (pre rest : list Rule) (rule : Rule) :
  ParseSchema db dest = inl err →
  rules p = pre ++ rule :: rest →
  Forall (fun r => SQLRepr r ≠ "") pre →
  SQLRepr rule = "" →
  setup p db dest =
    Ret (withRules p ((wrapRule p <$> pre) ++ rule :: rest), Some err).
Proof.
  intros Hparse Hrules Hpre Hrule. unfold setup.
  rewrite Hrules, (setupLoop_supplied_prefix _ _ _ Hpre).
  cbn [setupLoop]. unfold setupRule. rewrite Hrule, Hparse. reflexivity.
Qed.
End Setup.

Lemma setup_keeps_identity_witness :
  ∃ p',
    setup (collab := Demo.up) Demo.byname Demo.db Demo.dest = Ret (p', None)
    ∧ getDecoderFields p' = [("name", None)]
    ∧ cursor p' = cursor Demo.byname.
Proof.
  eexists. split; [reflexivity |].
  destruct (setup_keeps_identity (collab := Demo.up) Demo.byname Demo.db Demo.dest
              _ None eq_refl) as (Hcursor & _ & _ & _ & _ & Hfields).
  split; [rewrite Hfields; reflexivity | exact Hcursor].
Defined.

Lemma setup_supplied_witness :
  setup (collab := Demo.noschema) Demo.abc Demo.db Demo.dest = Ret (Demo.abc, None).
Proof.
  apply (setup_supplied (collab := Demo.noschema) Demo.abc Demo.db Demo.dest).
  repeat constructor; discriminate.
Defined.

Lemma setup_schema_error_witness :
  ∃ p',
    setup (collab := Demo.noschema) Cases.mixed Demo.db Demo.dest =
      Ret (p', Some (ErrOther "unknown schema"))
    ∧ SQLRepr <$> rules p' = ["COALESCE(u.id, '0')"; ""].
Proof.
  eexists. split.
  - apply (setup_schema_error (collab := Demo.noschema) Cases.mixed Demo.db Demo.dest
             (ErrOther "unknown schema") [Cases.uid] [] Demo.name);
      [reflexivity | reflexivity | | reflexivity].
    repeat constructor; discriminate.
  - reflexivity.
Defined.

Section SetupSchema.
Context {Row : Type} {collab : Collaborators Row}.
Variables (p : Paginator) (db : DB) (dest : Dest Row) (schema : Schema).
Hypothesis parsed : ParseSchema db dest = inr schema.

Lemma setupLoop_resolved_prefix (sqlTable : string) (pre pre' rs : list Rule) :
  sqlTable = "" ∨ sqlTable = Table schema →
  Forall2 (fun rule rule' => resolveRule schema (order p) rule = Some rule')
    pre pre' →
  ∃ sqlTable',
    (sqlTable' = "" ∨ sqlTable' = Table schema)
    ∧ setupLoop p db dest sqlTable (pre ++ rs) =
        '(rs', err) ← setupLoop p db dest sqlTable' rs;
        Ret (pre' ++ rs', err).
Proof.
  intros Htable Hall. revert sqlTable Htable.
  induction Hall as [|rule rule' pre pre' Hrule _ IH]; intros sqlTable Htable.
  - exists sqlTable. split; [done |]. cbn.
    by destruct (setupLoop p db dest sqlTable rs) as [|[rs' err]].
  - destruct (setupRule_resolved p db dest schema parsed sqlTable rule rule'
                Htable Hrule) as (table & Htable' & Hstep).
    destruct (IH table Htable') as (sqlTable' & Hlast & Hloop).
    exists sqlTable'. split; [done |].
    cbn [app setupLoop]. rewrite Hstep. cbn. rewrite Hloop.
    by destruct (setupLoop p db dest sqlTable' rs) as [|[rs' err]].
Qed.

(** X6: [setup] panics on the first rule without an expression whose key
    the schema does not know: [parseSQLKey] dereferences the field that
    [LookUpField] did not find. *)
Theorem setup_unknown_key_panics (pre rest : list Rule) (rule : Rule) :
  rules p = pre ++ rule :: rest →
  (∀ r, r ∈ pre → SQLRepr r = "" → is_Some (LookUpField schema (Key r))) →
  SQLRepr rule = "" →
  LookUpField schema (Key rule) = None →
  setup p db dest = Panic.
Proof.
  intros Hrules Hpre Hrule Hkey. unfold setup. rewrite Hrules.
  destruct (resolveRule_total p schema pre Hpre) as (pre' & Hall).
  destruct (setupLoop_resolved_prefix "" pre pre' (rule :: rest)
              (or_introl eq_refl) Hall) as (table & Htable & ->).
  cbn [setupLoop]. unfold setupRule, parseSQLKey. rewrite Hrule, parsed, Hkey.
  cbn. by destruct (table =? "")%string.
Qed.

(** X7: a paginator configured with [SetKeys] alone is resolved by [setup]
    to one rule per key, in key order, whose expression is the table and the
    column of the key and whose order is the paginator's. *)
Theorem setup_after_SetKeys (keys : list string) (fields : list Field) :
  Forall2 (fun key field => LookUpField schema key = Some field) keys fields →
  setup (SetKeys p keys) db dest =
    Ret (SetRules p
           (zip_with
              (fun key field =>
                 {| Key := key; Order := order p;
                    SQLRepr := Table schema +:+ "." +:+ DBName field;
                    SQLType := None; NULLReplacement := VNil;
                    CustomType := None |}) keys fields), None).
Proof.
  intros Hkeys. unfold setup.
  rewrite (setupLoop_resolved (SetKeys p keys) db dest schema parsed "" _
             (zip_with
                (fun key field =>
                   {| Key := key; Order := order p;
                      SQLRepr := Table schema +:+ "." +:+ DBName field;
                      SQLType := None; NULLReplacement := VNil;
                      CustomType := None |}) keys fields) (or_introl eq_refl));
    [done |].
  cbn. induction Hkeys as [|key field keys fields Hkey _ IH]; cbn.
  - constructor.
  - constructor; [| exact IH].
    unfold resolveRule. cbn. by rewrite Hkey.
Qed.
End SetupSchema.

Lemma setup_unknown_key_panics_witness :
  setup (collab := Cases.partial) Cases.bykeys Demo.db Demo.dest = Panic.
Proof.
  apply (setup_unknown_key_panics (collab := Cases.partial) Cases.bykeys Demo.db
           Demo.dest Cases.idonly eq_refl
           [{| Key := "id"; Order := ""; SQLRepr := ""; SQLType := None;
               NULLReplacement := VNil; CustomType := None |}] []
           {| Key := "name"; Order := ""; SQLRepr := ""; SQLType := None;
              NULLReplacement := VNil; CustomType := None |});
    [reflexivity | | reflexivity | reflexivity].
  intros r Hr _. apply list_elem_of_singleton in Hr as ->. by eexists.
Defined.

Lemma setup_after_SetKeys_witness :
  ∃ p',
    setup (collab := Demo.up) Cases.bykeys Demo.db Demo.dest = Ret (p', None)
    ∧ BuildOrderSQL (collab := Demo.up) p' = "users.id DESC, users.name DESC".
Proof.
  eexists. split.
  - apply (setup_after_SetKeys (collab := Demo.up)
             {| cursor := noCursor; rules := []; limit := 2; order := DESC |}
             Demo.db Demo.dest Demo.schema eq_refl ["id"; "name"]
             [{| DBName := "id" |}; {| DBName := "name" |}]).
    repeat constructor.
  - reflexivity.
Defined.

(** ** Decoding beyond the rules *)

Section DecodingBounds.
Context {Row : Type} {collab : Collaborators Row}.
Variable p : Paginator.

Lemma replaceNull_panicked (l : list nat) : foldl (replaceNull p) Panic l = Panic.
Proof. induction l as [|i l IH]; [done | exact IH]. Qed.

Lemma replaceNull_at (cur : list Value) (i : nat) (v : Value) :
  cur !! i = Some v →
  replaceNull p (Ret cur) i =
    match backfilled p i v with
    | Some w => Ret (<[i := w]> cur)
    | None => Panic
    end.
Proof.
  intros Hv. unfold replaceNull, backfilled. cbn. rewrite Hv. cbn.
  destruct (isNil v).
  - by destruct (rules p !! i).
  - by rewrite list_insert_id.
Qed.

Lemma replaceNull_covered (n k : nat) (cur : list Value) :
  k + n ≤ length cur →
  (∀ j v, k ≤ j < k + n → cur !! j = Some v → isNil v = true →
          j < length (rules p)) →
  ∃ out,
    foldl (replaceNull p) (Ret cur) (seq k n) = Ret out
    ∧ ∀ j, out !! j =
             if decide (k ≤ j < k + n) then cur !! j ≫= backfilled p j
             else cur !! j.
Proof.
  revert k cur. induction n as [|n IH]; intros k cur Hk Hcovered.
  - exists cur. split; [done |]. intros j. case_decide; [lia | done].
  - destruct (lookup_lt_is_Some_2 cur k ltac:(lia)) as [v Hv].
    assert (is_Some (backfilled p k v)) as [w Hw].
    { unfold backfilled. destruct (isNil v) eqn:Hnil; [| by eexists].
      destruct (lookup_lt_is_Some_2 (rules p) k) as [rule ->]; [| by eexists].
      apply (Hcovered k v); [lia | done | done]. }
    cbn [seq foldl]. rewrite (replaceNull_at cur k v Hv), Hw.
    destruct (IH (S k) (<[k := w]> cur)) as (out & Hout & Hlookup).
    { rewrite length_insert. lia. }
    { intros j u Hj Hu. rewrite list_lookup_insert_ne in Hu by lia.
      apply (Hcovered j u); [lia | done]. }
    exists out. split; [done |]. intros j. rewrite Hlookup.
    destruct (decide (j = k)) as [-> | Hne].
    + rewrite decide_False by lia. rewrite decide_True by lia.
      rewrite list_lookup_insert_eq by lia. by rewrite Hv.
    + rewrite list_lookup_insert_ne by done.
      repeat case_decide; try lia; done.
Qed.

Lemma replaceNull_uncovered (n k i : nat) (cur : list Value) (v : Value) :
  k ≤ i < k + n → k + n ≤ length cur →
  cur !! i = Some v → isNil v = true → length (rules p) ≤ i →
  foldl (replaceNull p) (Ret cur) (seq k n) = Panic.
Proof.
  revert k cur. induction n as [|n IH]; intros k cur Hi Hk Hv Hnil Hrules; [lia |].
  cbn [seq foldl]. destruct (decide (i = k)) as [-> | Hne].
  - rewrite (replaceNull_at cur k v Hv). unfold backfilled.
    rewrite Hnil, (lookup_ge_None_2 (rules p) k) by done. cbn.
    apply replaceNull_panicked.
  - destruct (lookup_lt_is_Some_2 cur k ltac:(lia)) as [u Hu].
    rewrite (replaceNull_at cur k u Hu).
    destruct (backfilled p k u) as [w|]; [| apply replaceNull_panicked].
    apply IH; [lia | rewrite length_insert; lia | | done | done].
    by rewrite list_lookup_insert_ne by done.
Qed.

(** X8: [DecodeCursor] returns whenever every nil value of the decoder
    stands at a position that has a rule, whatever the number of values: the
    nil values hold their rule's NULLReplacement, every other value is the
    decoder's, and the length is the decoder's. *)
Theorem DecodeCursor_covered (dest : Dest Row) (token : string)
    (decoded : list Value) (err : option error) :
  (After (cursor p) = Some token
   ∨ (After (cursor p) = None ∧ Before (cursor p) = Some token)) →
  Decode (getDecoderFields p) token dest = (decoded, err) →
  (∀ i v, decoded !! i = Some v → isNil v = true → i < length (rules p)) →
  ∃ result,
    DecodeCursor p dest =
      Ret (result, if notNil err then Some ErrInvalidCursor else None)
    ∧ length result = length decoded
    ∧ (∀ i v, decoded !! i = Some v → isNil v = false → result !! i = Some v)
    ∧ (∀ i v rule,
         decoded !! i = Some v → isNil v = true → rules p !! i = Some rule →
         result !! i = Some (NULLReplacement rule)).
Proof.
  intros Htoken Hdecode Hcovered.
  destruct (replaceNull_covered (length decoded) 0 decoded) as (out & Hout & Hlookup);
    [lia | by intros j v _; apply Hcovered |].
  exists out. split; [| split; [| split]].
  - unfold DecodeCursor, isBackward, isForward.
    destruct Htoken as [Hafter | [Hafter Hbefore]].
    + rewrite Hafter. cbn. rewrite Hdecode. cbn. by rewrite Hout.
    + rewrite Hafter, Hbefore. cbn. rewrite Hdecode. cbn. by rewrite Hout.
  - destruct (decide (length out = length decoded)) as [| Hne]; [done |].
    exfalso. destruct (decide (length out < length decoded)) as [Hlt | Hge].
    + destruct (lookup_lt_is_Some_2 decoded (length out) Hlt) as [v Hv].
      pose proof (Hlookup (length out)) as Hat.
      rewrite decide_True, Hv in Hat by lia.
      rewrite (lookup_ge_None_2 out) in Hat by lia.
      unfold backfilled in Hat. cbn in Hat.
      destruct (isNil v) eqn:Hnil; [| done].
      pose proof (Hcovered _ _ Hv Hnil) as Hrule.
      by destruct (lookup_lt_is_Some_2 (rules p) _ Hrule) as [rule Hr];
        rewrite Hr in Hat.
    + destruct (lookup_lt_is_Some_2 out (length decoded) ltac:(lia)) as [v Hv].
      pose proof (Hlookup (length decoded)) as Hat.
      rewrite decide_False, Hv in Hat by lia.
      by rewrite (lookup_ge_None_2 decoded) in Hat by lia.
  - intros i v Hv Hnil. rewrite Hlookup.
    rewrite decide_True by (apply lookup_lt_Some in Hv; lia).
    rewrite Hv. unfold backfilled. cbn. by rewrite Hnil.
  - intros i v rule Hv Hnil Hrule. rewrite Hlookup.
    rewrite decide_True by (apply lookup_lt_Some in Hv; lia).
    rewrite Hv. unfold backfilled. cbn. by rewrite Hnil, Hrule.
Qed.

(** X9: [DecodeCursor] panics when the decoder returns a nil value at a
    position beyond the last rule: the loop that replaces null values indexes
    the rules out of range. *)
Theorem DecodeCursor_uncovered_panics (dest : Dest Row) (token : string)
    (decoded : list Value) (err : option error) (i : nat) (v : Value) :
  (After (cursor p) = Some token
   ∨ (After (cursor p) = None ∧ Before (cursor p) = Some token)) →
  Decode (getDecoderFields p) token dest = (decoded, err) →
  decoded !! i = Some v → isNil v = true → length (rules p) ≤ i →
  DecodeCursor p dest = Panic.
Proof.
  intros Htoken Hdecode Hv Hnil Hrules.
  assert (foldl (replaceNull p) (Ret decoded) (seq 0 (length decoded)) = Panic)
    as Hloop.
  { apply (replaceNull_uncovered _ 0 i decoded v); try done.
    apply lookup_lt_Some in Hv. lia. }
  unfold DecodeCursor, isBackward, isForward.
  destruct Htoken as [Hafter | [Hafter Hbefore]].
  - rewrite Hafter. cbn. rewrite Hdecode. cbn. by rewrite Hloop.
  - rewrite Hafter, Hbefore. cbn. rewrite Hdecode. cbn. by rewrite Hloop.
Qed.
End DecodingBounds.

Lemma DecodeCursor_covered_witness :
  ∃ result,
    DecodeCursor (collab := Cases.overlong) Demo.abc Demo.dest = Ret (result, None)
    ∧ length result = 4
    ∧ result !! 3 = Some (VString "t").
Proof.
  destruct (DecodeCursor_covered (collab := Cases.overlong) Demo.abc Demo.dest "t"
              [VString "v"; VString "v"; VString "v"; VString "t"] None)
    as (result & Hdecode & Hlength & Hkept & _); [by left | reflexivity | |].
  - intros [|[|[|[|i]]]] v; cbn; intros; by simplify_eq.
  - exists result. split; [exact Hdecode | split; [exact Hlength |]].
    by apply Hkept.
Defined.

Lemma DecodeCursor_uncovered_panics_witness :
  DecodeCursor (collab := Cases.overlong) Demo.byname Demo.dest = Panic.
Proof.
  apply (DecodeCursor_uncovered_panics (collab := Cases.overlong) Demo.byname
           Demo.dest "null" [VString "v"; VNil] None 1 VNil);
    [by left | reflexivity | reflexivity | reflexivity | simpl; lia].
Defined.

(** ** Empty pages and unchecked limits *)

Section Edges.
Context {Row : Type} {collab : Collaborators Row}.

(** X10: on an empty slice [EncodeCursor] panics as soon as it has a token
    to emit, that is, when a cursor is set or hasMore holds: it indexes the
    slice at -1 or at 0.  Only without a cursor and without hasMore does it
    return, with the empty cursor. *)
Theorem EncodeCursor_empty (p : Paginator) (hasMore : bool) :
  EncodeCursor p [] hasMore =
    if isForward p || isBackward p || hasMore then Panic
    else Ret (noCursor, None).
Proof.
  unfold EncodeCursor, isBackward.
  by destruct (isForward p), (notNil (Before (cursor p))), hasMore.
Qed.

Lemma GetCursor_returns (p : Paginator) (elems : list Row) :
  ¬ (length elems = 1 ∧ (limit p ≤ 0)%Z) →
  ∃ out, GetCursor p (DSlice elems) = Ret out.
Proof.
  intros Hok. unfold GetCursor.
  destruct (decide (elems = [])) as [-> | Hne]; [by eexists |].
  assert ((0 <? length elems)%nat = true) as -> by (by destruct elems).
  cbv zeta. rewrite trimmed_page, ltb_bool_decide.
  set (kept := if bool_decide _ then removelast elems else elems).
  assert (kept ≠ []) as Hkept.
  { subst kept. case_bool_decide as Hmore; [| done].
    intros Hnil. apply (f_equal length) in Hnil.
    rewrite removelast_firstn_len, length_take in Hnil. cbn in Hnil.
    assert (0 < length elems) by (destruct elems; [done | cbn; lia]). lia. }
  assert ((if isBackward p then reverse kept else kept) ≠ []) as Hpage.
  { destruct (isBackward p); [| done]. unfold reverse.
    intros Hnil. apply (f_equal (@rev Row)) in Hnil.
    by rewrite rev_involutive in Hnil. }
  destruct (EncodeCursor_returns p _ (bool_decide (limit p < Z.of_nat (length elems))%Z)
              Hpage) as (c & err & ->).
  by eexists.
Qed.

(** X11: [GetCursor] does not check the limit.  It panics exactly when the
    slice holds a single row and the limit is not positive: the row is dropped
    as the sentinel and the cursor is then encoded from an empty page. *)
Theorem GetCursor_panics_iff (p : Paginator) (dest : Dest Row) :
  GetCursor p dest = Panic ↔ ∃ row, dest = DSlice [row] ∧ (limit p ≤ 0)%Z.
Proof.
  split.
  - intros Hpanic. destruct dest as [elems | row]; [| done].
    destruct (decide (length elems = 1 ∧ (limit p ≤ 0)%Z)) as [[Hone Hlimit] | Hok].
    + destruct elems as [|row [|row' elems]]; [done | | done]. by exists row.
    + destruct (GetCursor_returns p elems Hok) as [out Hout]. congruence.
  - intros (row & -> & Hlimit).
    assert ((limit p <? 1)%Z = true) as Hmore by (apply Z.ltb_lt; lia).
    change (GetCursor p (DSlice [row]))
      with (let hasMore := (limit p <? 1)%Z in
            let elems := if hasMore then take 0 [row] else [row] in
            let elems := if isBackward p then reverse elems else elems in
            '(c, err) ← EncodeCursor p elems hasMore;
            Ret (DSlice elems, c, err)).
    cbv zeta. rewrite Hmore. cbn [take].
    replace (if isBackward p then reverse [] else []) with (@nil Row)
      by (by destruct (isBackward p)).
    unfold EncodeCursor. by rewrite orb_true_r.
Qed.
End Edges.

Lemma GetCursor_panics_iff_witness :
  GetCursor (collab := Demo.up) Cases.unchecked (DSlice ["r1"]) = Panic.
Proof.
  apply (proj2 (GetCursor_panics_iff (collab := Demo.up) Cases.unchecked
                  (DSlice ["r1"]))).
  exists "r1". split; [reflexivity | simpl; lia].
Defined.

(** ** What a page request returns *)

Section Outcomes.
Context {Row : Type} {collab : Collaborators Row}.

Lemma Paginate_answered (p p' : Paginator) (db : DB) (dest : Dest Row)
    (fields : list Value) (result : DB) (fetched : Dest Row) :
  reachesEngine p db dest p' fields result fetched →
  ∃ c err out,
    Paginate p db dest =
      Ret (p', answered (AppendPagingQuery p' db fields) result c err out)
    ∧ (c = noCursor
       ∨ ∃ elems hasMore,
           EncodeCursor p' elems hasMore = Ret (c, err)
           ∧ out = DSlice elems ∧ elems ≠ [] ∧ Error result = None).
Proof.
  intros Hreach.
  destruct (reachesEngine_limit _ _ _ _ _ _ _ Hreach) as (Hpos & Hlimit & Hback).
  rewrite (Paginate_reached _ _ _ _ _ _ _ Hreach). cbv zeta.
  destruct (Error result) as [e|] eqn:Herror; cbn [notNil]; [by eauto 10 |].
  destruct fetched as [elems | row]; [| by eauto 10].
  destruct (decide (elems = [])) as [-> | Hne]; [by eauto 10 |].
  assert ((0 <? length elems)%nat = true) as -> by (by destruct elems).
  rewrite Hlimit, Hback, trimmed_page, ltb_bool_decide.
  pose proof (kept_nonempty (limit p) elems Hpos Hne) as Hkept.
  set (kept := if bool_decide _ then removelast elems else elems) in *.
  assert ((if isBackward p then reverse kept else kept) ≠ []) as Hpage.
  { destruct (isBackward p); [| done]. unfold reverse.
    intros Hnil. apply (f_equal (@rev Row)) in Hnil.
    by rewrite rev_involutive in Hnil. }
  destruct (EncodeCursor_returns p' _ (bool_decide (limit p < Z.of_nat (length elems))%Z)
              Hpage) as (c & err & Hencode).
  rewrite Hencode. cbn. exists c, err, (DSlice (if isBackward p then reverse kept else kept)).
  split; [done |]. right. by eauto 10.
Qed.

Lemma Paginate_inversion (p p' : Paginator) (db : DB) (dest : Dest Row)
    (page : Page Row) :
  Paginate p db dest = Ret (p', page) →
  (∃ e, page = aborted dest e)
  ∨ (∃ fields result fetched, reachesEngine p db dest p' fields result fetched).
Proof.
  intros Hpage.
  destruct (validate p db dest) as [e|] eqn:Hvalid.
  { left. exists e. revert Hpage. unfold Paginate. rewrite Hvalid. by intros [= _ <-]. }
  destruct (setup p db dest) as [|[p1 [e|]]] eqn:Hsetup.
  { revert Hpage. unfold Paginate. by rewrite Hvalid, Hsetup. }
  { left. exists e. revert Hpage. unfold Paginate. rewrite Hvalid, Hsetup.
    by intros [= _ <-]. }
  destruct (DecodeCursor p1 dest) as [|[fields [e|]]] eqn:Hdecode.
  { revert Hpage. unfold Paginate. rewrite Hvalid, Hsetup. cbn. by rewrite Hdecode. }
  { left. exists e. revert Hpage. unfold Paginate. rewrite Hvalid, Hsetup. cbn.
    rewrite Hdecode. by intros [= _ <-]. }
  destruct (Find (AppendPagingQuery p1 db fields) dest) as [result fetched] eqn:Hfind.
  assert (reachesEngine p db dest p1 fields result fetched) as Hreach by done.
  destruct (Paginate_answered _ _ _ _ _ _ _ Hreach) as (c & err & out & Hp1 & _).
  rewrite Hp1 in Hpage. injection Hpage as <- _.
  right. by eauto.
Qed.

(** X12: [Paginate] returns a cursor that is not empty only for a page
    that succeeded: its error is nil, the handle it returns has no Error, and
    [dest] holds a slice that is not empty. *)
Theorem tokens_only_on_success (p p' : Paginator) (db : DB) (dest : Dest Row)
    (page : Page Row) :
  Paginate p db dest = Ret (p', page) →
  page_cursor page ≠ noCursor →
  page_err page = None
  ∧ ∃ result elems,
      page_result page = Some result ∧ Error result = None
      ∧ page_dest page = DSlice elems ∧ elems ≠ [].
Proof.
  intros Hpage Htoken.
  destruct (Paginate_inversion _ _ _ _ _ Hpage) as [[e ->] | Hreach]; [done |].
  destruct Hreach as (fields & result & fetched & Hreach).
  destruct (Paginate_answered _ _ _ _ _ _ _ Hreach) as (c & err & out & Hp & Hc).
  rewrite Hp in Hpage. injection Hpage as <-. cbn in *.
  destruct Hc as [-> | (elems & hasMore & Hencode & -> & Hne & Herror)]; [done |].
  split; [| by exists result, elems].
  destruct err as [e|]; [| done].
  by rewrite (EncodeCursor_error _ _ _ _ _ Hencode) in Htoken.
Qed.

Lemma EncodeCursor_first_page (p : Paginator) (elems : list Row) (hasMore : bool)
    (c : Cursor) (err : option error) :
  isForward p = false → isBackward p = false →
  EncodeCursor p elems hasMore = Ret (c, err) →
  Before c = None ∧ (After c ≠ None → hasMore = true).
Proof.
  intros Hf Hb. unfold EncodeCursor. rewrite Hf, Hb.
  generalize (Encode (getEncoderFields p))
    (Index elems (Z.of_nat (length elems) - 1)).
  intros encoder [|final]; destruct hasMore; cbn; intros Hencode;
    repeat (case_match; simplify_eq; cbn in * ); by simplify_eq.
Qed.

(** X13: a request without a cursor, once validated and set up, always
    returns: it sends the engine the caller's statement with LIMIT limit + 1
    and ORDER BY in the rules' own directions and nothing else (no WHERE), and
    the cursor it returns never has a Before token; it has an After token only
    when it also has no error. *)
Theorem first_page (p p' : Paginator) (db : DB) (dest : Dest Row) :
  After (cursor p) = None → Before (cursor p) = None →
  validate p db dest = None →
  setup p db dest = Ret (p', None) →
  ∃ page stmt,
    Paginate p db dest = Ret (p', page)
    ∧ page_executed page = [stmt]
    ∧ Statement stmt =
        Statement db
          ++ [Limit (int_add (limit p) 1);
              OrderBy (String.concat ", "
                         ((fun rule => SQLRepr rule +:+ " " +:+ Order rule)
                            <$> rules p'))]
    ∧ Before (page_cursor page) = None
    ∧ (After (page_cursor page) ≠ None → page_err page = None).
Proof.
  intros Hafter Hbefore Hvalid Hsetup.
  destruct (setup_keeps _ _ _ _ _ Hsetup) as (Hcursor & Hlimit & _).
  assert (isForward p' = false ∧ isBackward p' = false) as [Hf Hb].
  { unfold isBackward, isForward. by rewrite Hcursor, Hafter, Hbefore. }
  assert (DecodeCursor p' dest = Ret ([], None)) as Hdecode.
  { unfold DecodeCursor. by rewrite Hb, Hf. }
  destruct (Find (AppendPagingQuery p' db []) dest) as [result fetched] eqn:Hfind.
  assert (reachesEngine p db dest p' [] result fetched) as Hreach by done.
  destruct (Paginate_answered _ _ _ _ _ _ _ Hreach) as (c & err & out & Hp & Hc).
  eexists _, _. split; [exact Hp |]. split; [reflexivity |]. split.
  - assert (rules p' ≠ []) as Hrules.
    { intros Hnone. revert Hsetup Hvalid. unfold setup, validate.
      destruct (setupLoop p db dest "" (rules p)) as [|[rs e]] eqn:Hloop; [done |].
      cbn. intros [= <- _]. cbn in Hnone. subst rs.
      apply setupLoop_identity, Forall2_length in Hloop.
      by destruct (rules p). }
    unfold AppendPagingQuery, db_Order. cbv zeta.
    rewrite (BuildOrderSQL_not_empty p' Hrules).
    unfold BuildOrderSQL. rewrite Hb, Hlimit. cbn.
    by rewrite <- app_assoc.
  - cbn. destruct Hc as [-> | (elems & hasMore & Hencode & _)]; [done |].
    destruct (EncodeCursor_first_page _ _ _ _ _ Hf Hb Hencode) as [Hnone _].
    split; [done |]. intros Hsome. destruct err as [e|]; [| done].
    by rewrite (EncodeCursor_error _ _ _ _ _ Hencode) in Hsome.
Qed.

(** X14: [AppendPaginationQuery] and [Paginate] go the same way up to the
    engine: where the first panics or returns an error, so does the second,
    with the same paginator and without a query; where the first returns a
    statement, the second returns too, and that statement is the only one it
    has executed.  [AppendPaginationQuery] never returns a cursor. *)
Theorem Paginate_runs_AppendPaginationQuery (p : Paginator) (db : DB)
    (dest : Dest Row) :
  match AppendPaginationQuery p db dest with
  | Panic => Paginate p db dest = Panic
  | Ret (p', (None, c, err)) =>
      c = noCursor
      ∧ ∃ e, err = Some e ∧ Paginate p db dest = Ret (p', aborted dest e)
  | Ret (p', (Some stmt, c, err)) =>
      c = noCursor ∧ err = None
      ∧ ∃ page,
          Paginate p db dest = Ret (p', page)
          ∧ page_executed page = [stmt]
          ∧ page_result page = Some (Find stmt dest).1
  end.
Proof.
  unfold AppendPaginationQuery.
  destruct (validate p db dest) as [e|] eqn:Hvalid.
  { split; [done |]. exists e. split; [done |]. unfold Paginate. by rewrite Hvalid. }
  destruct (setup p db dest) as [|[p1 [e|]]] eqn:Hsetup; cbn.
  { unfold Paginate. by rewrite Hvalid, Hsetup. }
  { split; [done |]. exists e. split; [done |]. unfold Paginate.
    by rewrite Hvalid, Hsetup. }
  destruct (DecodeCursor p1 dest) as [|[fields [e|]]] eqn:Hdecode; cbn.
  { unfold Paginate. rewrite Hvalid, Hsetup. cbn. by rewrite Hdecode. }
  { split; [done |]. exists e. split; [done |]. unfold Paginate.
    rewrite Hvalid, Hsetup. cbn. by rewrite Hdecode. }
  destruct (Find (AppendPagingQuery p1 db fields) dest) as [result fetched] eqn:Hfind.
  assert (reachesEngine p db dest p1 fields result fetched) as Hreach by done.
  destruct (Paginate_answered _ _ _ _ _ _ _ Hreach) as (c & err & out & Hp & _).
  destruct (notNil (Error (AppendPagingQuery p1 db fields)));
    (split; [done |]; split; [done |]; eexists; split; [exact Hp |];
     by rewrite Hfind).
Qed.

(** X15: a Before cursor set on a paginator that has an After cursor
    changes nothing: the traversal stays forward, and the ORDER BY, the
    predicate, the decoded fields and the encoded cursor are the same. *)
Theorem SetBeforeCursor_ignored (p : Paginator) (before : string)
    (dest : Dest Row) (elems : list Row) (hasMore : bool) :
  After (cursor p) ≠ None →
  let q := SetBeforeCursor p before in
  isForward q = true ∧ isBackward q = false
  ∧ BuildOrderSQL q = BuildOrderSQL p
  ∧ BuildCursorSQLQuery q = BuildCursorSQLQuery p
  ∧ DecodeCursor q dest = DecodeCursor p dest
  ∧ EncodeCursor q elems hasMore = EncodeCursor p elems hasMore.
Proof.
  destruct p as [[[after|] b] rs lim o]; [| done]. intros _. cbn.
  repeat split.
Qed.
End Outcomes.

Lemma tokens_only_on_success_witness :
  ∃ p' page,
    Paginate (collab := Demo.up) Demo.abc Demo.db Demo.dest = Ret (p', page)
    ∧ page_cursor page
      = {| After := Some "cursor:r2"; Before := Some "cursor:r1" |}
    ∧ page_err page = None
    ∧ page_dest page = DSlice ["r1"; "r2"].
Proof.
  eexists _, _. split; [reflexivity |]. split; [reflexivity |].
  destruct (tokens_only_on_success (collab := Demo.up) Demo.abc _ Demo.db Demo.dest
              _ eq_refl) as (Herr & _); [done |].
  split; [exact Herr | reflexivity].
Defined.

Lemma first_page_witness :
  ∃ page stmt,
    Paginate (collab := Demo.up) Cases.first Demo.db Demo.dest
      = Ret (Cases.first, page)
    ∧ page_executed page = [stmt]
    ∧ Statement stmt = [Limit 3; OrderBy "a ASC, b ASC, c ASC"]
    ∧ page_cursor page = {| After := Some "cursor:r2"; Before := None |}.
Proof.
  destruct (first_page (collab := Demo.up) Cases.first Cases.first Demo.db Demo.dest
              eq_refl eq_refl eq_refl eq_refl)
    as (page & stmt & Hpage & Hexecuted & Hstmt & _).
  exists page, stmt. split; [exact Hpage |]. split; [exact Hexecuted |].
  split; [rewrite Hstmt; reflexivity |].
  vm_compute in Hpage. injection Hpage as <-. reflexivity.
Defined.

Lemma SetBeforeCursor_ignored_witness :
  BuildOrderSQL (collab := Demo.up) (SetBeforeCursor Demo.abc "u")
    = "a ASC, b ASC, c ASC"
  ∧ BuildCursorSQLQuery (SetBeforeCursor Demo.abc "u")
    = "a > ? OR a = ? AND b > ? OR a = ? AND b = ? AND c > ?".
Proof.
  destruct (SetBeforeCursor_ignored (collab := Demo.up) Demo.abc "u" Demo.dest [] false)
    as (_ & _ & Horder & Hquery & _); [done |].
  rewrite Horder, Hquery. split; reflexivity.
Defined.

(** ** The last page *)

Section LastPage.
Context {Row : Type} {collab : Collaborators Row}.

Lemma EncodeCursor_last_page (p : Paginator) (elems : list Row) (c : Cursor)
    (err : option error) :
  EncodeCursor p elems false = Ret (c, err) →
  (isBackward p = false → After c = None) ∧ (isForward p = false → Before c = None).
Proof.
  unfold EncodeCursor.
  generalize (Encode (getEncoderFields p))
    (Index elems (Z.of_nat (length elems) - 1)) (Index elems 0).
  intros encoder [|final] [|first];
    destruct (isBackward p), (isForward p); cbn; intros Hencode;
    repeat (case_match; simplify_eq; cbn in * ); by simplify_eq.
Qed.

(** X16: when the engine returns no more rows than the limit, [Paginate]
    returns no token that leads further in the direction of the traversal: no
    After token unless the traversal is backward, and no Before token unless it
    is forward. *)
Theorem last_page_has_no_onward_token (p p' : Paginator) (db : DB)
    (dest : Dest Row) (fields : list Value) (result : DB) (fetched : list Row) :
  reachesEngine p db dest p' fields result (DSlice fetched) →
  (Z.of_nat (length fetched) ≤ limit p)%Z →
  ∃ page,
    Paginate p db dest = Ret (p', page)
    ∧ (isBackward p = false → After (page_cursor page) = None)
    ∧ (isForward p = false → Before (page_cursor page) = None).
Proof.
  intros Hreach Hlast.
  destruct (reachesEngine_limit _ _ _ _ _ _ _ Hreach) as (_ & _ & Hback).
  assert (isForward p' = isForward p) as Hfwd.
  { destruct Hreach as (_ & Hsetup & _).
    apply setup_keeps in Hsetup as (Hcursor & _). unfold isForward.
    by rewrite Hcursor. }
  destruct (Paginate_answered _ _ _ _ _ _ _ Hreach) as (c & err & out & Hpage & _).
  exists (answered (AppendPagingQuery p' db fields) result c err out).
  split; [done |]. cbn.
  destruct (Error result) as [e|] eqn:Herror.
  { rewrite (Paginate_reached _ _ _ _ _ _ _ Hreach), Herror in Hpage.
    cbn in Hpage. by injection Hpage as <- _ _. }
  destruct (decide (fetched = [])) as [-> | Hne].
  { rewrite (Paginate_reached _ _ _ _ _ _ _ Hreach), Herror in Hpage.
    cbn in Hpage. by injection Hpage as <- _ _. }
  rewrite (Paginate_page _ _ _ _ _ _ _ Hreach Herror Hne) in Hpage.
  rewrite bool_decide_eq_false_2 in Hpage by lia.
  destruct (EncodeCursor p' _ false) as [|[c' err']] eqn:Hencode; [done |].
  cbn in Hpage. injection Hpage as <- <- _.
  rewrite <- Hback, <- Hfwd. by eapply EncodeCursor_last_page.
Qed.
End LastPage.

Lemma last_page_has_no_onward_token_witness :
  ∃ page,
    Paginate (collab := Demo.engine (Demo.answer ["r1"; "r2"]) (inr Demo.schema))
      Demo.abc Demo.db Demo.dest = Ret (Demo.abc, page)
    ∧ After (page_cursor page) = None.
Proof.
  destruct (last_page_has_no_onward_token
              (collab := Demo.engine (Demo.answer ["r1"; "r2"]) (inr Demo.schema))
              Demo.abc Demo.abc Demo.db Demo.dest
              [VString "t"; VString "t"; VString "t"]
              (AppendPagingQuery
                 (collab := Demo.engine (Demo.answer ["r1"; "r2"]) (inr Demo.schema))
                 Demo.abc Demo.db [VString "t"; VString "t"; VString "t"])
              ["r1"; "r2"])
    as (page & Hpage & Hafter & _); [repeat split; reflexivity | simpl; lia |].
  exists page. split; [exact Hpage | by apply Hafter].
Defined.

Lemma setup_again_plain_witness :
  ∃ p',
    setup (collab := Demo.up) Cases.bykeys Demo.db Demo.dest = Ret (p', None)
    ∧ setup (collab := Demo.up) p' Demo.db Demo.dest = Ret (p', None).
Proof.
  eexists. split; [reflexivity |].
  apply (setup_again_plain (collab := Demo.up) Cases.bykeys Demo.db Demo.dest
           Demo.schema eq_refl);
    [repeat constructor | intros rule _ _; by eexists | reflexivity].
Defined.
